(** * Question-bank builder: a shallow embedding of [scripts/build_banks.py]

    The script turns a flat text dump of exam papers into per-subject
    question banks.  This development embeds its four regular expressions,
    [normalize_line], the section segmenter [parse_subject_blocks], the
    question extractor [parse_questions_from_block], the driver [main] and the
    command-line entry, and proves properties of them.

    Python strings are sequences of Unicode code points: they are embedded as
    lists of [N].  Python dictionaries keep insertion order: they are embedded
    as association lists with unique keys. *)

From Stdlib Require Import String Ascii List NArith Arith Bool Lia.
From Stdlib Require Import ZArith Sorting.Sorted Sorting.Permutation.
From Stdlib Require Import DecimalString.
Import ListNotations.

Local Open Scope N_scope.

(** ** Strings *)

Definition pystr := list N.

(** [U "..."] is the Python string with the given ASCII text. *)
Definition U (s : string) : pystr := map N_of_ascii (list_ascii_of_string s).

Definition pystr_eqb (a b : pystr) : bool :=
  if list_eq_dec N.eq_dec a b then true else false.

(** Truth value of a string: [bool(s)], false exactly for the empty string. *)
Definition truthy {A : Type} (s : list A) : bool :=
  match s with [] => false | _ :: _ => true end.

(** [sep.join(parts)] *)
Fixpoint join (sep : pystr) (parts : list pystr) : pystr :=
  match parts with
  | [] => []
  | [p] => p
  | p :: rest => p ++ sep ++ join sep rest
  end.

Definition SP : N := 32.

(** Unicode white space, the set both [str.strip()] and the [\s] class of
    [re] use (Py_UNICODE_ISSPACE). *)
Definition isspace (c : N) : bool :=
  ((9 <=? c) && (c <=? 13)) || ((28 <=? c) && (c <=? 32))
  || (c =? 133) || (c =? 160) || (c =? 5760)
  || ((8192 <=? c) && (c <=? 8202))
  || (c =? 8232) || (c =? 8233) || (c =? 8239) || (c =? 8287) || (c =? 12288).

(** First code points of the runs of ten decimal digits (general category Nd,
    Unicode 14.0), and the run of fifty mathematical digits. *)
Definition decimal_runs : list N :=
  [48; 1632; 1776; 1984; 2406; 2534; 2662; 2790; 2918; 3046; 3174; 3302;
   3430; 3558; 3664; 3792; 3872; 4160; 4240; 6112; 6160; 6470; 6608; 6784;
   6800; 6992; 7088; 7232; 7248; 42528; 43216; 43264; 43472; 43504; 43600;
   44016; 65296; 66720; 68912; 69734; 69872; 69942; 70096; 70384; 70736;
   70864; 71248; 71360; 71472; 71904; 72016; 72784; 73040; 73120; 92768;
   92864; 93008; 123200; 123632; 125264; 130032].

(** The [\d] class of [re] on [str] patterns (Py_UNICODE_ISDECIMAL). *)
Definition isdecimal (c : N) : bool :=
  existsb (fun lo => (lo <=? c) && (c <? lo + 10)) decimal_runs
  || ((120782 <=? c) && (c <? 120832)).

Fixpoint lstrip (s : pystr) : pystr :=
  match s with
  | c :: s' => if isspace c then lstrip s' else s
  | [] => []
  end.

Fixpoint rstrip (s : pystr) : pystr :=
  match s with
  | [] => []
  | c :: s' =>
      match rstrip s' with
      | [] => if isspace c then [] else [c]
      | r => c :: r
      end
  end.

(** [s.strip()] *)
Definition strip (s : pystr) : pystr := rstrip (lstrip s).

(** [re.sub(r"\s+", " ", s)]: every maximal run of white space becomes one
    space.  [in_run] tells that the previous character was white space. *)
Fixpoint sub_spaces (in_run : bool) (s : pystr) : pystr :=
  match s with
  | [] => []
  | c :: s' =>
      if isspace c
      then (if in_run then sub_spaces true s' else SP :: sub_spaces true s')
      else c :: sub_spaces false s'
  end.

Definition normalize_line (s : pystr) : pystr := sub_spaces false (strip s).

(** [str.upper()] on the characters that can reach it in this program: the
    group it is applied to is matched by [SUBJECT_LINE_RE] (ASCII letters,
    their case-insensitive equivalents, white space, [&], [.]) or by the
    letter class of [OPTION_RE].  DOTLESS I and LONG S map to [I] and [S];
    CAPITAL I WITH DOT ABOVE and KELVIN SIGN are upper case already. *)
Definition upper_char (c : N) : N :=
  if (97 <=? c) && (c <=? 122) then c - 32
  else if c =? 305 then 73
  else if c =? 383 then 83
  else c.

Definition upper (s : pystr) : pystr := map upper_char s.

(** Comparison of strings, code point by code point, as [<=] on [str]. *)
Fixpoint pystr_leb (a b : pystr) : bool :=
  match a, b with
  | [], _ => true
  | _ :: _, [] => false
  | x :: a', y :: b' => if x =? y then pystr_leb a' b' else x <? y
  end.

(** ** A backtracking matcher for the fragment of [re] the script uses *)

Inductive regex : Type :=
| Eps                                     (* empty pattern *)
| Cls (p : N -> bool)                     (* one character of a class *)
| Seq (r1 r2 : regex)                     (* r1 r2 *)
| Alt (r1 r2 : regex)                     (* r1|r2, r1 tried first *)
| Star (p : N -> bool)                    (* [class]*, greedy *)
| Rep (p : N -> bool) (lo hi : nat)       (* [class]{lo,hi}, greedy *)
| Grp (n : nat) (r : regex)               (* capturing group number n *)
| Eol.                                    (* $ *)

(** r? *)
Definition Opt (r : regex) : regex := Alt r Eps.
(** [class]+ *)
Definition Plus (p : N -> bool) : regex := Seq (Cls p) (Star p).
(** Concatenation of a list of patterns. *)
Definition Cat (rs : list regex) : regex := fold_right Seq Eps rs.
(** Alternation of a non-empty list of patterns, in order. *)
Fixpoint Alts (r : regex) (rs : list regex) : regex :=
  match rs with
  | [] => r
  | r' :: rs' => Alt r (Alts r' rs')
  end.

Definition groups := list (nat * pystr).

Section Matcher.
Variable A : Type.

Fixpoint star_greedy (p : N -> bool) (s : pystr) (k : pystr -> option A)
  : option A :=
  match s with
  | c :: s' =>
      if p c
      then match star_greedy p s' k with
           | Some x => Some x
           | None => k s
           end
      else k s
  | [] => k s
  end.

Fixpoint rep_greedy (p : N -> bool) (lo hi : nat) (s : pystr)
  (k : pystr -> option A) : option A :=
  let stop := if Nat.eqb lo 0 then k s else None in
  match hi with
  | O => stop
  | S hi' =>
      match s with
      | c :: s' =>
          if p c
          then match rep_greedy p (Nat.pred lo) hi' s' k with
               | Some x => Some x
               | None => stop
               end
          else stop
      | [] => stop
      end
  end.

(** [rmatch r s g k]: match [r] at the head of [s] with the groups [g]
    captured so far, then continue with [k] on what is left; on failure of
    the continuation the next choice of [r] is tried. *)
Fixpoint rmatch (r : regex) (s : pystr) (g : groups)
  (k : pystr -> groups -> option A) : option A :=
  match r with
  | Eps => k s g
  | Cls p =>
      match s with
      | c :: s' => if p c then k s' g else None
      | [] => None
      end
  | Seq r1 r2 => rmatch r1 s g (fun s' g' => rmatch r2 s' g' k)
  | Alt r1 r2 =>
      match rmatch r1 s g k with
      | Some x => Some x
      | None => rmatch r2 s g k
      end
  | Star p => star_greedy p s (fun s' => k s' g)
  | Rep p lo hi => rep_greedy p lo hi s (fun s' => k s' g)
  | Grp n r1 =>
      rmatch r1 s g
        (fun s' g' =>
           k s' ((n, firstn (length s - length s')%nat s) :: g'))
  | Eol =>
      match s with
      | [] => k s g
      | [10] => k s g
      | _ => None
      end
  end.
End Matcher.

Arguments star_greedy {A} p s k.
Arguments rep_greedy {A} p lo hi s k.
Arguments rmatch {A} r s g k.

(** [pattern.match(s)]: the match object is the list of captured groups. *)
Definition re_match (r : regex) (s : pystr) : option groups :=
  rmatch r s [] (fun _ g => Some g).

Definition is_match (r : regex) (s : pystr) : bool :=
  match re_match r s with Some _ => true | None => false end.

(** [m.group(n)]; every group of the four patterns takes part in every match,
    the default is never used. *)
Fixpoint group (n : nat) (m : groups) : pystr :=
  match m with
  | [] => []
  | (n', t) :: m' => if Nat.eqb n n' then t else group n m'
  end.

(** *** Character classes and literals *)

Definition one_of (cs : string) (c : N) : bool := existsb (N.eqb c) (U cs).

(** [.] without DOTALL: anything but a newline. *)
Definition dot (c : N) : bool := negb (c =? 10).

Definition ascii_upper_letter (c : N) : bool := (65 <=? c) && (c <=? 90).
Definition ascii_lower_letter (c : N) : bool := (97 <=? c) && (c <=? 122).

(** The simple lower-case mapping of [re] (unicode_tolower).  Its result is
    only ever compared with an ASCII lower-case letter and with the two
    characters of [case_fixes]; it is tabulated on the code points it sends
    there: the ASCII capitals, CAPITAL I WITH DOT ABOVE (to [i]) and KELVIN
    SIGN (to [k]). *)
Definition sre_lower (c : N) : N :=
  if ascii_upper_letter c then c + 32
  else if c =? 304 then 105
  else if c =? 8490 then 107
  else c.

(** Lower-case characters with the same upper case as an ASCII letter
    (the entries of [_equivalences] under an ASCII key): [i] with DOTLESS I,
    [s] with LONG S. *)
Definition case_fixes (lo : N) : list N :=
  if lo =? 105 then [305] else if lo =? 115 then [383] else [].

(** A literal character of a pattern compiled with [re.I]. *)
Definition ci (l : N) (c : N) : bool :=
  if ascii_upper_letter l || ascii_lower_letter l
  then let lo := sre_lower l in
       existsb (N.eqb (sre_lower c)) (lo :: case_fixes lo)
  else c =? l.

(** A literal character of a pattern compiled without flags. *)
Definition cs (l : N) (c : N) : bool := c =? l.

(** A literal text, one class per character. *)
Definition Lit (lit : N -> N -> bool) (s : string) : regex :=
  Cat (map (fun l => Cls (lit l)) (U s)).

(** *** The four patterns *)

(** [^(20\d{2})\s+NATIONAL QUALIFYING], [re.I].  [match] anchors at the start
    of the string, which is all [^] asks for. *)
Definition YEAR_HEADER_RE : regex :=
  Cat [ Grp 1 (Seq (Lit ci "20") (Rep isdecimal 2 2));
        Plus isspace;
        Lit ci "NATIONAL QUALIFYING" ].

(** [^(BIOLOGY|CHEMISTRY|PHYSICS|GENERAL\s+KNOWLEDGE(?:\s+SCIENTIFIC\s+FIELD)?
      |GENERAL\s+\s*KNOWLEDGE\s*(?:&|AND)\s*(?:LANGUAGE|FRENCH)(?:A\.)?
      |FRENCH(?:\s+LANGUAGE)?)\s*$], [re.I] *)
Definition SUBJECT_LINE_RE : regex :=
  Cat [ Grp 1
          (Alts (Lit ci "BIOLOGY")
             [ Lit ci "CHEMISTRY";
               Lit ci "PHYSICS";
               Cat [ Lit ci "GENERAL"; Plus isspace; Lit ci "KNOWLEDGE";
                     Opt (Cat [ Plus isspace; Lit ci "SCIENTIFIC";
                                Plus isspace; Lit ci "FIELD" ]) ];
               Cat [ Lit ci "GENERAL"; Plus isspace; Star isspace;
                     Lit ci "KNOWLEDGE"; Star isspace;
                     Alt (Lit ci "&") (Lit ci "AND"); Star isspace;
                     Alt (Lit ci "LANGUAGE") (Lit ci "FRENCH");
                     Opt (Lit ci "A.") ];
               Cat [ Lit ci "FRENCH";
                     Opt (Cat [ Plus isspace; Lit ci "LANGUAGE" ]) ] ]);
        Star isspace;
        Eol ].

(** [^(\d{1,3})\s*[\).]?\s*( .* )] (the last group is written with blanks
    here, it has none in the source) *)
Definition QUESTION_START_RE : regex :=
  Cat [ Grp 1 (Rep isdecimal 1 3);
        Star isspace;
        Opt (Cls (one_of ")."));
        Star isspace;
        Grp 2 (Star dot) ].

Definition HYPHEN : N := 45.
Definition BULLET : N := 8226.

(** [^[\s\-\•]*([A-Ea-e])[\).\-:]\s*( .* )] (blanks as above) *)
Definition OPTION_RE : regex :=
  Cat [ Star (fun c => isspace c || (c =? HYPHEN) || (c =? BULLET));
        Grp 1 (Cls (fun c => ((65 <=? c) && (c <=? 69))
                             || ((97 <=? c) && (c <=? 101))));
        Cls (one_of ").-:");
        Star isspace;
        Grp 2 (Star dot) ].

(** ** Dictionaries *)

Section Dict.
Variable V : Type.

(** A Python [dict] with string keys: bindings in insertion order, one per
    key. *)
Definition dict := list (pystr * V).

(** [d.get(k)] *)
Fixpoint dict_get (d : dict) (k : pystr) : option V :=
  match d with
  | [] => None
  | (k', v) :: d' => if pystr_eqb k k' then Some v else dict_get d' k
  end.

(** [d[k] = v]: a key already there keeps its place. *)
Fixpoint dict_set (d : dict) (k : pystr) (v : V) : dict :=
  match d with
  | [] => [(k, v)]
  | (k', v') :: d' =>
      if pystr_eqb k k' then (k', v) :: d' else (k', v') :: dict_set d' k v
  end.

(** [d.keys()] *)
Definition dict_keys (d : dict) : list pystr := map fst d.

(** [d.setdefault(k, v)], for its effect on [d]. *)
Definition dict_setdefault (d : dict) (k : pystr) (v : V) : dict :=
  match dict_get d k with
  | Some _ => d
  | None => dict_set d k v
  end.
End Dict.

Arguments dict_get {V} d k.
Arguments dict_set {V} d k v.
Arguments dict_keys {V} d.
Arguments dict_setdefault {V} d k v.

(** [sorted(keys)] on strings: a stable insertion sort by [pystr_leb]. *)
Fixpoint insert_sorted (x : pystr) (l : list pystr) : list pystr :=
  match l with
  | [] => [x]
  | y :: l' => if pystr_leb x y then x :: l else y :: insert_sorted x l'
  end.

Definition sorted (l : list pystr) : list pystr := fold_right insert_sorted [] l.

(** [l[start:end]] for indices that are not negative. *)
Definition slice {A : Type} (l : list A) (start stop : nat) : list A :=
  skipn start (firstn stop l).

(** ** Section segmenter *)

Definition SUBJECT_ALIASES : dict pystr :=
  [ (U "BIOLOGY", U "biology");
    (U "CHEMISTRY", U "chemistry");
    (U "PHYSICS", U "physics");
    (U "GENERAL KNOWLEDGE", U "general-knowledge");
    (U "GENERAL KNOWLEDGE SCIENTIFIC FIELD", U "general-knowledge");
    (U "GENERAL  KNOWLEDGE AND FRENCH", U "general-knowledge");
    (U "GENERAL KNOWLEDGE & LANGUAGE", U "general-knowledge");
    (U "GENERAL KNOWLEDGE & LANGUAGE ", U "general-knowledge");
    (U "GENERAL KNOWLEDGE AND FRENCHA.", U "general-knowledge");
    (U "FRENCH", U "french");
    (U "FRENCH LANGUAGE", U "french") ].

(** A block is the tuple [(year, subject_key, start_idx, end_idx)]. *)
Definition block := (pystr * pystr * nat * nat)%type.

(** The local variables of [parse_subject_blocks]. *)
Record seg_state := {
  blocks : list block;
  current_year : option pystr;
  last_subject_idx : option nat;
  last_subject_key : option pystr
}.

(** [current_year or ''] *)
Definition year_or_empty (y : option pystr) : pystr :=
  match y with Some t => t | None => [] end.

(** The block closed when a subject header or the end of input is reached at
    index [i]; nothing when no section is pending. *)
Definition close_block (st : seg_state) (i : nat) : list block :=
  match last_subject_idx st, last_subject_key st with
  | Some idx, Some key =>
      blocks st ++ [(year_or_empty (current_year st), key, idx, i)]
  | _, _ => blocks st
  end.

(** Lines 45 to 48: the subject key a normalized line resolves to, through
    the subject pattern and the alias table. *)
Definition resolve_subject (line : pystr) : option pystr :=
  match re_match SUBJECT_LINE_RE line with
  | Some m_sub => dict_get SUBJECT_ALIASES (upper (group 1 m_sub))
  | None => None
  end.

(** One iteration of [for i, raw in enumerate(lines)]. *)
Definition seg_step (st : seg_state) (i : nat) (raw : pystr) : seg_state :=
  let line := normalize_line raw in
  if negb (truthy line) then st
  else
    match re_match YEAR_HEADER_RE line with
    | Some m_year =>
        {| blocks := blocks st;
           current_year := Some (group 1 m_year);
           last_subject_idx := last_subject_idx st;
           last_subject_key := last_subject_key st |}
    | None =>
        match resolve_subject line with
        | None => st
        | Some subject_key =>
            {| blocks := close_block st i;
               current_year := current_year st;
               last_subject_idx := Some (S i);
               last_subject_key := Some subject_key |}
        end
    end.

Fixpoint seg_loop (st : seg_state) (i : nat) (lines : list pystr) : seg_state :=
  match lines with
  | [] => st
  | raw :: rest => seg_loop (seg_step st i raw) (S i) rest
  end.

Definition seg_init : seg_state :=
  {| blocks := []; current_year := None;
     last_subject_idx := None; last_subject_key := None |}.

Definition parse_subject_blocks (lines : list pystr) : list block :=
  close_block (seg_loop seg_init 0 lines) (length lines).

(** ** Question extractor *)

Record Question := {
  question : pystr;
  options : list pystr;
  answer : option pystr;
  year : option pystr
}.

(** [normalize_line(block_lines[i])], for [i] below the length. *)
Definition line_at (block_lines : list pystr) (i : nat) : pystr :=
  normalize_line (nth i block_lines []).

(** Lines 79 to 88: accumulate question text until the first option or the
    next question number.  Every loop over the cursor carries [fuel], an upper
    bound on the iterations left; [length block_lines - i] is enough. *)
Fixpoint accumulate_text (fuel : nat) (block_lines : list pystr) (i : nat)
  (qtext_parts : list pystr) : list pystr * nat :=
  match fuel with
  | O => (qtext_parts, i)
  | S fuel' =>
      if (i <? length block_lines)%nat then
        let nl := line_at block_lines i in
        if is_match OPTION_RE nl then (qtext_parts, i)
        else if is_match QUESTION_START_RE nl then (qtext_parts, i)
        else
          accumulate_text fuel' block_lines (S i)
            (if truthy nl then qtext_parts ++ [nl] else qtext_parts)
      else (qtext_parts, i)
  end.

(** Lines 105 to 113: coalesce the wrapped lines of an option. *)
Fixpoint coalesce (fuel : nat) (block_lines : list pystr) (j : nat)
  (cont_parts : list pystr) : list pystr * nat :=
  match fuel with
  | O => (cont_parts, j)
  | S fuel' =>
      if (j <? length block_lines)%nat then
        let nl2 := line_at block_lines j in
        if negb (truthy nl2) then coalesce fuel' block_lines (S j) cont_parts
        else if is_match OPTION_RE nl2 || is_match QUESTION_START_RE nl2
        then (cont_parts, j)
        else coalesce fuel' block_lines (S j) (cont_parts ++ [nl2])
      else (cont_parts, j)
  end.

(** Lines 100 to 115: letter and text of the option that starts at line [i],
    whose match is [m_opt], and the index after its wrapped lines. *)
Definition read_option (block_lines : list pystr) (i : nat) (m_opt : groups)
  : pystr * pystr * nat :=
  let letter := upper (group 1 m_opt) in
  let opt_text := strip (group 2 m_opt) in
  let '(cont_parts, j) := coalesce (length block_lines) block_lines (S i) [] in
  let opt_text :=
    if truthy cont_parts
    then normalize_line (opt_text ++ U " " ++ join (U " ") cont_parts)
    else opt_text in
  (letter, opt_text, j).

(** Lines 91 to 117: gather the options of the current question. *)
Fixpoint gather_options (fuel : nat) (block_lines : list pystr) (i : nat)
  (opts : dict pystr) : dict pystr * nat :=
  match fuel with
  | O => (opts, i)
  | S fuel' =>
      if (i <? length block_lines)%nat then
        let nl := line_at block_lines i in
        match re_match OPTION_RE nl with
        | None =>
            if is_match QUESTION_START_RE nl then (opts, i)
            else gather_options fuel' block_lines (S i) opts
        | Some m_opt =>
            let '(letter, opt_text, j) := read_option block_lines i m_opt in
            gather_options fuel' block_lines j (dict_set opts letter opt_text)
        end
      else (opts, i)
  end.

(** The assignments [options[letter] = opt_text] that the loop of
    [gather_options] performs, in the order it performs them. *)
Fixpoint option_lines (fuel : nat) (block_lines : list pystr) (i : nat)
  : list (pystr * pystr) :=
  match fuel with
  | O => []
  | S fuel' =>
      if (i <? length block_lines)%nat then
        let nl := line_at block_lines i in
        match re_match OPTION_RE nl with
        | None =>
            if is_match QUESTION_START_RE nl then []
            else option_lines fuel' block_lines (S i)
        | Some m_opt =>
            let '(letter, opt_text, j) := read_option block_lines i m_opt in
            (letter, opt_text) :: option_lines fuel' block_lines j
        end
      else []
  end.

(** [options[k]] for a key of the dictionary; the default stands for the
    KeyError that a key taken from [options.keys()] never raises. *)
Definition dict_item (d : dict pystr) (k : pystr) : pystr :=
  match dict_get d k with Some v => v | None => [] end.

(** Lines 118 to 123: the option texts, ordered by letter. *)
Definition order_options (opts : dict pystr) : list pystr :=
  if truthy opts
  then let ordered_letters := sorted (dict_keys opts) in
       map (dict_item opts) ordered_letters
  else [].

(** Lines 75 to 124: the question that starts at line [i], whose match is
    [m_q]: its text, its options as gathered, and the cursor after it. *)
Definition read_question (block_lines : list pystr) (i : nat) (m_q : groups)
  : pystr * dict pystr * nat :=
  let qtext_parts := [strip (group 2 m_q)] in
  let i := S i in
  let '(qtext_parts, i) :=
    accumulate_text (length block_lines) block_lines i qtext_parts in
  let '(opts, i) := gather_options (length block_lines) block_lines i [] in
  let question_text := strip (normalize_line (join (U " ") qtext_parts)) in
  (question_text, opts, i).

(** [default_year or None] *)
Definition year_or_none (default_year : pystr) : option pystr :=
  if truthy default_year then Some default_year else None.

(** The outer loop, lines 65 to 132. *)
Fixpoint questions_loop (fuel : nat) (block_lines : list pystr)
  (default_year : pystr) (i : nat) (questions : list Question)
  : list Question :=
  match fuel with
  | O => questions
  | S fuel' =>
      if (i <? length block_lines)%nat then
        let line := line_at block_lines i in
        if negb (truthy line)
        then questions_loop fuel' block_lines default_year (S i) questions
        else
          match re_match QUESTION_START_RE line with
          | None =>
              questions_loop fuel' block_lines default_year (S i) questions
          | Some m_q =>
              let '(question_text, opts, i') :=
                read_question block_lines i m_q in
              if negb (truthy question_text)
              then questions_loop fuel' block_lines default_year i' questions
              else
                questions_loop fuel' block_lines default_year i'
                  (questions ++
                     [ {| question := question_text;
                          options := order_options opts;
                          answer := None;
                          year := year_or_none default_year |} ])
          end
      else questions
  end.

Definition parse_questions_from_block (block_lines : list pystr)
  (default_year : pystr) : list Question :=
  questions_loop (length block_lines) block_lines default_year 0 [].

(** ** Driver *)

(** The initial [per_subject] of [main]. *)
Definition per_subject_init : dict (list Question) :=
  [ (U "biology", []); (U "chemistry", []); (U "physics", []);
    (U "general-knowledge", []); (U "french", []) ].

(** [per_subject[key]], for a key that is present. *)
Definition bank_of (per_subject : dict (list Question)) (key : pystr)
  : list Question :=
  match dict_get per_subject key with Some items => items | None => [] end.

(** One iteration of [for year, subject_key, start, end in blocks]. *)
Definition collect_step (raw_lines : list pystr)
  (per_subject : dict (list Question)) (b : block) : dict (list Question) :=
  let '(year, subject_key, start, stop) := b in
  let sub_lines := slice raw_lines start stop in
  let qs := parse_questions_from_block sub_lines year in
  let per_subject := dict_setdefault per_subject subject_key [] in
  dict_set per_subject subject_key (bank_of per_subject subject_key ++ qs).

(** Lines 140 to 156: the questions of every section, per subject. *)
Definition collect (raw_lines : list pystr) : dict (list Question) :=
  fold_left (collect_step raw_lines) (parse_subject_blocks raw_lines)
    per_subject_init.

(** Lines 161 to 168: drop the items whose question text was seen before.
    [seen] is a set, used for membership only. *)
Fixpoint dedup_loop (items : list Question) (seen : list pystr)
  (deduped : list Question) : list Question :=
  match items with
  | [] => deduped
  | it :: rest =>
      let t := question it in
      if existsb (pystr_eqb t) seen
      then dedup_loop rest seen deduped
      else dedup_loop rest (t :: seen) (deduped ++ [it])
  end.

Definition dedup (items : list Question) : list Question :=
  dedup_loop items [] [].

(** A Python [set] of strings as a process holds it.  Where an element sits
    in the table depends on its hash, and the hash of a string changes from
    one process to the next (hash randomization): [hash] is the hash function
    of the process, and the set is listed in the order of its table, by
    hash.  [set_add] is [s.add(t)] for a [t] that is not in [s]. *)
Fixpoint set_add (hash : pystr -> N) (t : pystr) (s : list pystr)
  : list pystr :=
  match s with
  | [] => [t]
  | x :: s' => if hash t <=? hash x then t :: s else x :: set_add hash t s'
  end.

(** [t in s] *)
Definition set_mem (t : pystr) (s : list pystr) : bool :=
  existsb (pystr_eqb t) s.

(** Lines 161 to 168 as a process runs them, with [seen] the set of that
    process. *)
Fixpoint dedup_loop_in (hash : pystr -> N) (items : list Question)
  (seen : list pystr) (deduped : list Question) : list Question :=
  match items with
  | [] => deduped
  | it :: rest =>
      let t := question it in
      if set_mem t seen
      then dedup_loop_in hash rest seen deduped
      else dedup_loop_in hash rest (set_add hash t seen) (deduped ++ [it])
  end.

Definition dedup_in (hash : pystr -> N) (items : list Question)
  : list Question :=
  dedup_loop_in hash items [] [].

(** *** Serialization: [json.dump(deduped, f, ensure_ascii=False, indent=2)] *)

Definition hex_digit (n : N) : N := if n <? 10 then 48 + n else 87 + n.

(** Escapes of the encoder when [ensure_ascii] is off: quote, backslash and
    the control characters. *)
Definition json_escape (c : N) : pystr :=
  if c =? 34 then [92; 34]
  else if c =? 92 then [92; 92]
  else if c =? 10 then [92; 110]
  else if c =? 13 then [92; 114]
  else if c =? 9 then [92; 116]
  else if c =? 8 then [92; 98]
  else if c =? 12 then [92; 102]
  else if c <? 32
       then [92; 117; 48; 48; hex_digit (c / 16); hex_digit (c mod 16)]
  else [c].

Definition json_string (s : pystr) : pystr :=
  [34] ++ flat_map json_escape s ++ [34].

Definition json_optional (o : option pystr) : pystr :=
  match o with Some s => json_string s | None => U "null" end.

Definition newline_indent (level : nat) : pystr := 10 :: repeat SP (2 * level).

(** A list or an object between [opening] and [closing], its items one per
    line; the empty list is printed as the two brackets. *)
Definition json_container (opening closing : string) (level : nat)
  (items : list pystr) : pystr :=
  match items with
  | [] => U opening ++ U closing
  | _ :: _ =>
      U opening ++ newline_indent (S level)
      ++ join (U "," ++ newline_indent (S level)) items
      ++ newline_indent level ++ U closing
  end.

Definition json_member (key : string) (value : pystr) : pystr :=
  json_string (U key) ++ U ": " ++ value.

Definition json_question (level : nat) (q : Question) : pystr :=
  json_container "{" "}" level
    [ json_member "question" (json_string (question q));
      json_member "options"
        (json_container "[" "]" (S level) (map json_string (options q)));
      json_member "answer" (json_optional (answer q));
      json_member "year" (json_optional (year q)) ].

Definition json_dump (items : list Question) : pystr :=
  json_container "[" "]" 0 (map (json_question 1) items).

(** *** Files and process *)

(** The operating system and the interpreter as the script meets them: the
    hash function of the process; whether reading the text of a path,
    creating a directory, writing a file and printing a line succeed; and
    whether the lines printed can be flushed when the process ends.  A failed
    operation raises an exception ([OSError], or [UnicodeEncodeError] from
    [print]), which nothing in the script catches. *)
Record os := {
  os_hash : pystr -> N;
  os_read : pystr -> option pystr;
  os_makedirs : pystr -> bool;
  os_write : pystr -> pystr -> bool;
  os_print : pystr -> bool;
  os_flush : bool
}.

Inductive event :=
| Wrote (path content : pystr)
| Printed (line : pystr).

Inductive completion := Returned | Raised.

Definition is_linebreak (c : N) : bool :=
  ((10 <=? c) && (c <=? 13)) || ((28 <=? c) && (c <=? 30))
  || (c =? 133) || (c =? 8232) || (c =? 8233).

(** [text.splitlines()]; [cur] is the current line, reversed. *)
Fixpoint splitlines_from (cur : pystr) (text : pystr) : list pystr :=
  match text with
  | [] => if truthy cur then [rev cur] else []
  | c :: text' =>
      if c =? 13 then
        match text' with
        | 10 :: text'' => rev cur :: splitlines_from [] text''
        | _ => rev cur :: splitlines_from [] text'
        end
      else if is_linebreak c then rev cur :: splitlines_from [] text'
      else splitlines_from (c :: cur) text'
  end.

Definition splitlines (text : pystr) : list pystr := splitlines_from [] text.

(** [os.path.join(a, b)] on POSIX. *)
Definition path_join (a b : pystr) : pystr :=
  match b with
  | 47 :: _ => b
  | _ => if negb (truthy a) || (last a 0 =? 47) then a ++ b
         else a ++ U "/" ++ b
  end.

(** [str(n)] *)
Definition str_of_nat (n : nat) : pystr :=
  U (NilZero.string_of_uint (Nat.to_uint n)).

Definition out_path_of (out_dir key : pystr) : pystr :=
  path_join out_dir (key ++ U "-full.json").

(** The line of line 172. *)
Definition count_line (n : nat) (out_path : pystr) : pystr :=
  U "Wrote " ++ str_of_nat n ++ U " questions to " ++ out_path.

(** Lines 159 to 172: [for key, items in per_subject.items()].  The file is
    written before its line is printed; either can fail and end the loop. *)
Fixpoint write_banks (env : os) (out_dir : pystr)
  (per_subject : dict (list Question)) : list event * completion :=
  match per_subject with
  | [] => ([], Returned)
  | (key, items) :: rest =>
      let deduped := dedup_in (os_hash env) items in
      let out_path := out_path_of out_dir key in
      if os_write env out_path (json_dump deduped) then
        if os_print env (count_line (length deduped) out_path) then
          let '(evs, c) := write_banks env out_dir rest in
          (Wrote out_path (json_dump deduped)
             :: Printed (count_line (length deduped) out_path)
             :: evs, c)
        else ([Wrote out_path (json_dump deduped)], Raised)
      else ([], Raised)
  end.

Definition main (env : os) (txt_path out_dir : pystr)
  : list event * completion :=
  match os_read env txt_path with
  | None => ([], Raised)
  | Some text =>
      let raw_lines := splitlines text in
      let per_subject := collect raw_lines in
      if os_makedirs env out_dir
      then write_banks env out_dir per_subject
      else ([], Raised)
  end.





(** ** Vocabulary of the statements *)

(** Strict order on strings. *)
Definition pystr_lt (a b : pystr) : Prop := pystr_leb a b = true /\ a <> b.

(** The five option letters, upper case. *)
Definition LETTERS : list pystr := [U "A"; U "B"; U "C"; U "D"; U "E"].

(** A normalized non-empty line: it starts and ends with a character that is
    not white space, and its white space is single spaces. *)
Inductive tidy : pystr -> Prop :=
| tidy_one c : isspace c = false -> tidy [c]
| tidy_cons c s : isspace c = false -> tidy s -> tidy (c :: s)
| tidy_sp c s : isspace c = false -> tidy s -> tidy (c :: SP :: s).

(** White space occurs as single spaces only (leading and trailing ones
    allowed). *)
Fixpoint spaced (s : pystr) : Prop :=
  match s with
  | [] => True
  | c :: s' =>
      (isspace c = true ->
       c = SP /\ match s' with d :: _ => isspace d = false | [] => True end)
      /\ spaced s'
  end.

(** The test of line 110 on a raw line: it starts an option or a question. *)
Definition starts_item (raw : pystr) : bool :=
  is_match OPTION_RE (normalize_line raw)
  || is_match QUESTION_START_RE (normalize_line raw).

(** The records of a bank whose question text is [t]. *)
Definition with_text (t : pystr) (items : list Question) : list Question :=
  filter (fun it => pystr_eqb (question it) t) items.

(** Moving a block past a line inserted at index [n]: a start after [n] and
    an end at or after [n] move by one. *)
Definition shift_block (n : nat) (b : block) : block :=
  let '(y, key, start, stop) := b in
  (y, key, if (start <=? n)%nat then start else S start,
           if (stop <? n)%nat then stop else S stop).

(** The same move on the state of the segmenter. *)
Definition shift_state (n : nat) (st : seg_state) : seg_state :=
  {| blocks := map (shift_block n) (blocks st);
     current_year := current_year st;
     last_subject_idx :=
       option_map (fun idx => if (idx <=? n)%nat then idx else S idx)
         (last_subject_idx st);
     last_subject_key := last_subject_key st |}.

(** Every index the state holds lies before a line at index [n]: blocks end
    before it, and start at it at the latest. *)
Definition settled (n : nat) (st : seg_state) : Prop :=
  Forall (fun b : block =>
            let '(_, _, start, stop) := b in
            (start <= n)%nat /\ (stop < n)%nat) (blocks st)
  /\ match last_subject_idx st with
     | Some idx => (idx <= n)%nat
     | None => True
     end.


(** The banks of a process: the value of [deduped] for each key, in the
    order of the keys. *)
Definition deduped_banks (env : os) (raw_lines : list pystr)
  : dict (list Question) :=
  map (fun kv : pystr * list Question =>
         (fst kv, dedup_in (os_hash env) (snd kv)))
    (collect raw_lines).

(** The events of a run in which nothing fails: each bank written, then its
    line printed. *)
Definition bank_events (out_dir : pystr) (per_subject : dict (list Question))
  : list event :=
  flat_map (fun kv : pystr * list Question =>
              [ Wrote (out_path_of out_dir (fst kv))
                  (json_dump (dedup (snd kv)));
                Printed (count_line (length (dedup (snd kv)))
                           (out_path_of out_dir (fst kv))) ])
    per_subject.

(** *** Sample inputs *)

Definition scenario1 : list pystr :=
  [ U "2022 NATIONAL QUALIFYING EXAM";
    U "BIOLOGY";
    U "1) What is the powerhouse of the cell?";
    U "A) Nucleus";
    U "B) Mitochondria";
    U "C) Ribosome" ].

Definition powerhouse : Question :=
  {| question := U "What is the powerhouse of the cell?";
     options := [U "Nucleus"; U "Mitochondria"; U "Ribosome"];
     answer := None;
     year := Some (U "2022") |}.

(** The question and options of [scenario1]. *)
Definition scenario1_block : list pystr := slice scenario1 2 6.

(** A question whose options come out of order, one of them twice and one
    wrapped over two lines. *)
Definition shuffled_block : list pystr :=
  [ U "7. Which gas do plants absorb?";
    U "B) Oxygen";
    U "A) Carbon";
    U "   dioxide";
    U "B) Nitrogen" ].

Definition shuffled_question : Question :=
  {| question := U "Which gas do plants absorb?";
     options := [U "Carbon dioxide"; U "Nitrogen"];
     answer := None;
     year := None |}.

(** A paper with a header that no alias resolves, in the middle of the
    biology section. *)
Definition paper_head : list pystr :=
  [ U "2022 NATIONAL QUALIFYING EXAM"; U "BIOLOGY"; U "1) First question" ].

Definition paper_tail : list pystr :=
  [ U "A) an option"; U "CHEMISTRY"; U "2) Second question" ].

(** Two biology sections of different years that share a question. *)
Definition two_years : list pystr :=
  [ U "2021 NATIONAL QUALIFYING EXAM";
    U "BIOLOGY";
    U "1) What is the powerhouse of the cell?";
    U "A) Nucleus";
    U "CHEMISTRY";
    U "2022 NATIONAL QUALIFYING EXAM";
    U "BIOLOGY";
    U "1) What is the powerhouse of the cell?";
    U "A) Mitochondria";
    U "2) What carries oxygen?" ].


(** An operating system where every operation succeeds and every path reads
    as [text]. *)
Definition os_fine (text : pystr) : os :=
  {| os_hash := fun t => N.of_nat (length t);
     os_read := fun _ => Some text;
     os_makedirs := fun _ => true;
     os_write := fun _ _ => true;
     os_print := fun _ => true;
     os_flush := true |}.

(** An operating system without any readable file. *)
Definition os_empty : os :=
  {| os_hash := fun t => N.of_nat (length t);
     os_read := fun _ => None;
     os_makedirs := fun _ => true;
     os_write := fun _ _ => true;
     os_print := fun _ => true;
     os_flush := true |}.

(** An operating system where every path reads as [text], with another hash
    function, where the line of [bad_line] cannot be printed. *)
Definition os_failing_print (text bad_line : pystr) : os :=
  {| os_hash := fun t => 1000 - hd 0 t;
     os_read := fun _ => Some text;
     os_makedirs := fun _ => true;
     os_write := fun _ _ => true;
     os_print := fun line => negb (pystr_eqb line bad_line);
     os_flush := true |}.


(** *** Vocabulary of the further properties *)

(** The keys [main] starts [per_subject] with. *)
Definition CANONICAL_KEYS : list pystr := dict_keys per_subject_init.

(** The components of a block. *)
Definition block_year (b : block) : pystr := let '(y, _, _, _) := b in y.
Definition block_key (b : block) : pystr := let '(_, key, _, _) := b in key.
Definition block_start (b : block) : nat := let '(_, _, start, _) := b in start.
Definition block_stop (b : block) : nat := let '(_, _, _, stop) := b in stop.

(** Adjacent blocks: a block starts on the line after the header that ended
    the block before it. *)
Fixpoint chained (bs : list block) : Prop :=
  match bs with
  | b1 :: ((b2 :: _) as rest) =>
      S (block_stop b1) = block_start b2 /\ chained rest
  | _ => True
  end.

(** The state of the segmenter after [n] lines: a section is pending as soon
    as there are blocks, it starts after the header that closed the last
    block, and the blocks lie in order before line [n]. *)
Definition seg_wf (n : nat) (st : seg_state) : Prop :=
  Forall (fun b => (1 <= block_start b <= block_stop b)%nat
                   /\ (block_stop b < n)%nat) (blocks st)
  /\ chained (blocks st)
  /\ match last_subject_idx st, last_subject_key st with
     | Some idx, Some _ =>
         (1 <= idx <= n)%nat /\
         match blocks st with
         | [] => True
         | b :: bs => S (block_stop (last bs b)) = idx
         end
     | None, None => blocks st = []
     | _, _ => False
     end.

(** The tests of lines 39 to 50 on a raw line: it is not blank, it is no
    year header and it resolves to a subject key, so it opens a section. *)
Definition opens_section (raw : pystr) : bool :=
  let line := normalize_line raw in
  truthy line
  && negb (is_match YEAR_HEADER_RE line)
  && match resolve_subject line with Some _ => true | None => false end.

(** The year in force after some lines, from the year [y] in force before
    them: the first group of the last line that is a year header. *)
Fixpoint year_in_force (y : option pystr) (lines : list pystr)
  : option pystr :=
  match lines with
  | [] => y
  | raw :: rest =>
      year_in_force
        (match re_match YEAR_HEADER_RE (normalize_line raw) with
         | Some m_year => Some (group 1 m_year)
         | None => y
         end) rest
  end.

(** The questions of the blocks of one subject, in the order of the
    blocks. *)
Definition questions_of (raw_lines : list pystr) (key : pystr)
  (bs : list block) : list Question :=
  flat_map (fun b : block =>
              let '(y, subject_key, start, stop) := b in
              if pystr_eqb subject_key key
              then parse_questions_from_block (slice raw_lines start stop) y
              else []) bs.

(** The pattern has no capturing group. *)
Fixpoint no_groups (r : regex) : bool :=
  match r with
  | Seq r1 r2 | Alt r1 r2 => no_groups r1 && no_groups r2
  | Grp _ _ => false
  | _ => true
  end.

(** A year as the year pattern captures it: [20] and two decimal digits. *)
Definition year_shaped (y : pystr) : Prop :=
  exists d1 d2,
    y = [50; 48; d1; d2] /\ isdecimal d1 = true /\ isdecimal d2 = true.

(** The paths of the files an event list writes, in order. *)
Fixpoint written_paths (evs : list event) : list pystr :=
  match evs with
  | [] => []
  | Wrote path _ :: rest => path :: written_paths rest
  | Printed _ :: rest => written_paths rest
  end.

(** An operating system where every path reads as [text] and every write
    succeeds but the one to [bad_path]. *)
Definition os_failing_write (text bad_path : pystr) : os :=
  {| os_hash := fun t => N.of_nat (length t);
     os_read := fun _ => Some text;
     os_makedirs := fun _ => true;
     os_write := fun path _ => negb (pystr_eqb path bad_path);
     os_print := fun _ => true;
     os_flush := true |}.

(** * Properties *)

(** ** Strings *)

Lemma pystr_eqb_eq (a b : pystr) : pystr_eqb a b = true <-> a = b.
Proof.
  unfold pystr_eqb. destruct (list_eq_dec N.eq_dec a b); split; congruence.
Qed.

Lemma pystr_eqb_refl (a : pystr) : pystr_eqb a a = true.
Proof. now apply pystr_eqb_eq. Qed.

Lemma pystr_eqb_neq (a b : pystr) : pystr_eqb a b = false <-> a <> b.
Proof.
  unfold pystr_eqb. destruct (list_eq_dec N.eq_dec a b); split; congruence.
Qed.

Lemma isspace_SP : isspace SP = true.
Proof. reflexivity. Qed.

Lemma tidy_nonempty s : tidy s -> s <> [].
Proof. destruct 1; discriminate. Qed.

Lemma tidy_head s : tidy s -> exists c s', s = c :: s' /\ isspace c = false.
Proof. destruct 1; eauto. Qed.

Lemma lstrip_tidy s : tidy s -> lstrip s = s.
Proof. intros H. destruct (tidy_head _ H) as (c & s' & -> & Hc). simpl. now rewrite Hc. Qed.

Lemma rstrip_tidy s : tidy s -> rstrip s = s.
Proof.
  induction 1 as [c Hc | c s Hc Hs IH | c s Hc Hs IH]; simpl.
  - now rewrite Hc.
  - rewrite IH. destruct s; [now apply tidy_nonempty in Hs | reflexivity].
  - rewrite IH. destruct s; [now apply tidy_nonempty in Hs | reflexivity].
Qed.

Lemma strip_tidy s : tidy s -> strip s = s.
Proof. intros H. unfold strip. rewrite (lstrip_tidy _ H). now apply rstrip_tidy. Qed.

Lemma sub_spaces_tidy s : tidy s -> sub_spaces false s = s.
Proof.
  induction 1 as [c Hc | c s Hc Hs IH | c s Hc Hs IH]; simpl; rewrite Hc.
  - reflexivity.
  - now rewrite IH.
  - destruct (tidy_head _ Hs) as (d & s' & -> & Hd). simpl in *.
    rewrite Hd in *. now rewrite IH.
Qed.

Lemma normalize_tidy s : tidy s -> normalize_line s = s.
Proof. intros H. unfold normalize_line. rewrite (strip_tidy _ H). now apply sub_spaces_tidy. Qed.

Lemma rstrip_head c t : isspace c = false -> rstrip (c :: t) = c :: rstrip t.
Proof. intros Hc. simpl. rewrite Hc. now destruct (rstrip t). Qed.

Lemma rstrip_ends t : rstrip t = [] \/ isspace (last (rstrip t) SP) = false.
Proof.
  induction t as [|c t IH]; [now left|]. simpl.
  destruct (rstrip t) as [|d r] eqn:E.
  - destruct (isspace c) eqn:Hc; [now left | right; exact Hc].
  - right. destruct IH as [IH | IH]; [discriminate | exact IH].
Qed.

Lemma lstrip_cases s :
  lstrip s = [] \/ exists c s', lstrip s = c :: s' /\ isspace c = false.
Proof.
  induction s as [|c s IH]; [now left|]. simpl.
  destruct (isspace c) eqn:Hc; [exact IH | right; eauto].
Qed.

Lemma sub_spaces_tidy_gen t :
  (isspace (last t SP) = false -> tidy (sub_spaces true t)) /\
  (forall c, isspace c = false -> isspace (last (c :: t) SP) = false ->
             tidy (c :: sub_spaces false t)).
Proof.
  induction t as [|d t [IHA IHB]].
  - split.
    + simpl. rewrite isspace_SP. discriminate.
    + intros c Hc _. now apply tidy_one.
  - assert (Hlast : isspace d = true ->
                    isspace (last (d :: t) SP) = false ->
                    isspace (last t SP) = false).
    { intros Hd Hl. destruct t; [simpl in Hl; congruence | exact Hl]. }
    split.
    + intros Hl. simpl sub_spaces. destruct (isspace d) eqn:Hd.
      * apply IHA. now apply Hlast.
      * now apply IHB.
    + intros c Hc Hl. change (last (c :: d :: t) SP) with (last (d :: t) SP) in Hl.
      simpl sub_spaces. destruct (isspace d) eqn:Hd.
      * apply tidy_sp; [exact Hc|]. apply IHA. now apply Hlast.
      * apply tidy_cons; [exact Hc|]. now apply IHB.
Qed.

(** A normalized line is empty or tidy. *)
Lemma normalize_cases s : normalize_line s = [] \/ tidy (normalize_line s).
Proof.
  unfold normalize_line, strip.
  destruct (lstrip_cases s) as [-> | (c & s' & -> & Hc)]; [now left|].
  right. rewrite (rstrip_head c s' Hc).
  simpl sub_spaces. rewrite Hc.
  apply (proj2 (sub_spaces_tidy_gen (rstrip s'))); [exact Hc|].
  destruct (rstrip_ends (c :: s')) as [E | E]; rewrite (rstrip_head c s' Hc) in E;
    [discriminate | exact E].
Qed.

Lemma normalize_idem s : normalize_line (normalize_line s) = normalize_line s.
Proof.
  destruct (normalize_cases s) as [-> | H]; [reflexivity | now apply normalize_tidy].
Qed.

Lemma strip_normalize s : strip (normalize_line s) = normalize_line s.
Proof.
  destruct (normalize_cases s) as [-> | H]; [reflexivity | now apply strip_tidy].
Qed.

Lemma tidy_spaced s : tidy s -> spaced s.
Proof.
  induction 1 as [c Hc | c s Hc Hs IH | c s Hc Hs IH]; simpl.
  - split; [congruence | exact I].
  - split; [congruence | exact IH].
  - split; [congruence|]. split; [|exact IH].
    intros _. split; [reflexivity|].
    destruct (tidy_head _ Hs) as (d & s' & -> & Hd). exact Hd.
Qed.

Lemma spaced_app_r a b : spaced (a ++ b) -> spaced b.
Proof. induction a as [|c a IH]; simpl; [auto | intros [_ H]; auto]. Qed.

Lemma spaced_app_l a b : spaced (a ++ b) -> spaced a.
Proof.
  induction a as [|c a IH]; simpl; [auto|]. intros [H1 H2]. split; [|auto].
  intros Hc. destruct (H1 Hc) as [E Hn]. split; [exact E|].
  destruct a; [exact I | exact Hn].
Qed.

Lemma lstrip_suffix s : exists a, s = a ++ lstrip s.
Proof.
  induction s as [|c s [a IH]]; [now exists []|]. simpl.
  destruct (isspace c); [exists (c :: a); simpl; congruence | now exists []].
Qed.

Lemma rstrip_prefix s : exists b, s = rstrip s ++ b.
Proof.
  induction s as [|c s [b IH]]; [now exists []|]. simpl.
  destruct (rstrip s) as [|d r] eqn:E.
  - destruct (isspace c); [exists (c :: s) | exists b]; simpl in *; congruence.
  - exists b. simpl in *. congruence.
Qed.

Lemma spaced_strip s : spaced s -> spaced (strip s).
Proof.
  intros H. unfold strip.
  destruct (lstrip_suffix s) as [a Ea]. rewrite Ea in H. apply spaced_app_r in H.
  destruct (rstrip_prefix (lstrip s)) as [b Eb]. rewrite Eb in H.
  now apply spaced_app_l in H.
Qed.

Lemma sub_spaces_spaced t : spaced t -> sub_spaces false t = t.
Proof.
  induction t as [|c t IH]; [reflexivity|]. intros [H1 H2]. simpl.
  destruct (isspace c) eqn:Hc.
  - destruct (H1 eq_refl) as [-> Hn]. f_equal.
    destruct t as [|d t]; [reflexivity|]. simpl. rewrite Hn.
    specialize (IH H2). simpl in IH. rewrite Hn in IH. exact IH.
  - f_equal. auto.
Qed.

(** Stripping a piece of a normalized line leaves it normalized. *)
Lemma strip_spaced s : spaced s -> strip s = [] \/ tidy (strip s).
Proof.
  intros H.
  assert (E : normalize_line s = strip s).
  { unfold normalize_line. apply sub_spaces_spaced. now apply spaced_strip. }
  rewrite <- E. apply normalize_cases.
Qed.

Lemma tidy_app_sp a b : tidy a -> tidy b -> tidy (a ++ SP :: b).
Proof.
  intros Ha Hb. induction Ha as [c Hc | c s Hc Hs IH | c s Hc Hs IH]; simpl.
  - now apply tidy_sp.
  - now apply tidy_cons.
  - now apply tidy_sp.
Qed.

Lemma join_cons sep p q rest :
  join sep (p :: q :: rest) = p ++ sep ++ join sep (q :: rest).
Proof. reflexivity. Qed.

Lemma join_tidy p parts :
  Forall tidy (p :: parts) -> tidy (join (U " ") (p :: parts)).
Proof.
  revert p. induction parts as [|q parts IH]; intros p H.
  - now inversion H.
  - rewrite join_cons. inversion H; subst.
    change (U " " ++ join (U " ") (q :: parts)) with (SP :: join (U " ") (q :: parts)).
    apply tidy_app_sp; auto.
Qed.

(** ** The matcher *)

Lemma firstn_length_diff (a s : pystr) :
  firstn (length (a ++ s) - length s) (a ++ s) = a.
Proof.
  rewrite length_app, Nat.add_sub, firstn_app, firstn_all, Nat.sub_diag.
  simpl. apply app_nil_r.
Qed.

Section MatcherFacts.
Variable A : Type.
Implicit Types (k : pystr -> option A) (p : N -> bool).

(** A successful star has consumed a run of the class and the continuation
    has succeeded on the rest. *)
Lemma star_greedy_inv p s k x :
  star_greedy p s k = Some x ->
  exists a s', s = a ++ s' /\ forallb p a = true /\ k s' = Some x.
Proof.
  induction s as [|c s IH]; simpl; intros H.
  - now exists [], [].
  - destruct (p c) eqn:Hc; [|now exists [], (c :: s)].
    destruct (star_greedy p s k) as [y|] eqn:E; [|now exists [], (c :: s)].
    destruct (IH H) as (a & s' & -> & Ha & Hk).
    exists (c :: a), s'. simpl. rewrite Hc, Ha. repeat split; congruence.
Qed.

Lemma rep_greedy_inv p lo hi s k x :
  rep_greedy p lo hi s k = Some x ->
  exists a s', s = a ++ s' /\ forallb p a = true /\
               (lo <= length a <= hi)%nat /\ k s' = Some x.
Proof.
  revert lo s. induction hi as [|hi IH]; intros lo s H.
  - simpl in H. destruct (Nat.eqb_spec lo 0); [|discriminate]. subst.
    exists [], s. simpl. repeat split; auto.
  - assert (Hstop : (if Nat.eqb lo 0 then k s else None) = Some x ->
                    exists a s', s = a ++ s' /\ forallb p a = true /\
                                 (lo <= length a <= S hi)%nat /\ k s' = Some x).
    { destruct (Nat.eqb_spec lo 0); [|discriminate]. subst. intros Hk.
      exists [], s. simpl. repeat split; auto. lia. }
    simpl in H. destruct s as [|c s]; [auto|].
    destruct (p c) eqn:Hc; [|auto].
    destruct (rep_greedy p (Nat.pred lo) hi s k) as [y|] eqn:E; [|auto].
    injection H as ->.
    destruct (IH _ _ E) as (a & s' & -> & Ha & Hl & Hk).
    exists (c :: a), s'. simpl. rewrite Hc, Ha. repeat split; try congruence; lia.
Qed.

(** With a continuation that cannot fail, neither can a star nor a
    repetition without lower bound. *)
Lemma star_greedy_total p s k :
  (forall s', k s' <> None) -> star_greedy p s k <> None.
Proof.
  intros Hk. induction s as [|c s IH]; simpl; [apply Hk|].
  destruct (p c); [|apply Hk].
  destruct (star_greedy p s k); [discriminate | apply Hk].
Qed.

Lemma rep_greedy_total p hi s k :
  (forall s', k s' <> None) -> rep_greedy p 0 hi s k <> None.
Proof.
  intros Hk. revert s. induction hi as [|hi IH]; intros s; simpl; [apply Hk|].
  destruct s as [|c s]; [apply Hk|].
  destruct (p c); [|apply Hk].
  destruct (rep_greedy p 0 hi s k); [discriminate | apply Hk].
Qed.

Lemma rep_greedy_total_pos p hi c s k :
  p c = true -> (forall s', k s' <> None) ->
  rep_greedy p 1 (S hi) (c :: s) k <> None.
Proof.
  intros Hc Hk. simpl. rewrite Hc.
  pose proof (rep_greedy_total p hi s k Hk) as T.
  now destruct (rep_greedy p 0 hi s k).
Qed.
End MatcherFacts.

Lemma is_match_true r s : is_match r s = true <-> exists m, re_match r s = Some m.
Proof.
  unfold is_match. destruct (re_match r s) as [m|]; split; eauto; try discriminate.
  now intros [m H].
Qed.

Lemma is_match_false r s : is_match r s = false <-> re_match r s = None.
Proof.
  unfold is_match. destruct (re_match r s); split; congruence.
Qed.

(** What the question pattern decides: it matches exactly the strings whose
    first character is a decimal digit. *)
Lemma question_start_iff s :
  is_match QUESTION_START_RE s = true <->
  exists c s', s = c :: s' /\ isdecimal c = true.
Proof.
  rewrite is_match_true.
  unfold re_match, QUESTION_START_RE, Cat, Opt. cbn [fold_right rmatch]. split.
  - intros [m H]. apply rep_greedy_inv in H.
    destruct H as (a & s' & -> & Ha & Hl & _).
    destruct a as [|c a]; [simpl in Hl; lia|].
    simpl in Ha. apply andb_prop in Ha. exists c, (a ++ s'). now split.
  - intros (c & s' & -> & Hc).
    match goal with |- exists m, ?t = Some m => destruct t eqn:E end; [eauto|].
    exfalso. revert E. apply rep_greedy_total_pos; [exact Hc|].
    intros s1. apply star_greedy_total. intros s2.
    match goal with |- match ?t with _ => _ end <> None => destruct t end;
      [discriminate|].
    apply star_greedy_total. intros s3. apply star_greedy_total. discriminate.
Qed.

(** The shape of a match of the option pattern: leading decoration, a letter
    [c] of A to E in either case, a separator, white space, and the text. *)
Lemma option_match_inv nl m :
  re_match OPTION_RE nl = Some m ->
  exists a c d w t b,
    nl = a ++ c :: d :: w ++ t ++ b /\
    (((65 <=? c) && (c <=? 69)) || ((97 <=? c) && (c <=? 101))) = true /\
    m = [(2%nat, t); (1%nat, [c])].
Proof.
  unfold re_match, OPTION_RE, Cat. cbn [fold_right rmatch]. intros H.
  apply star_greedy_inv in H. destruct H as (a & s1 & -> & _ & H).
  destruct s1 as [|c s1]; [discriminate|].
  match type of H with (if ?b then _ else _) = _ => destruct b eqn:Hc end;
    [|discriminate].
  destruct s1 as [|d s1]; [discriminate|].
  destruct (one_of ").-:" d); [|discriminate].
  apply star_greedy_inv in H. destruct H as (w & s2 & -> & _ & H).
  apply star_greedy_inv in H. destruct H as (t & b & -> & _ & H).
  exists a, c, d, w, t, b. repeat split; [exact Hc|].
  rewrite firstn_length_diff in H.
  pose proof (firstn_length_diff [c] (d :: w ++ t ++ b)) as E. simpl app in E.
  rewrite E in H. now injection H as <-.
Qed.

(** ** Dictionaries and sorting *)

Section DictFacts.
Variable V : Type.
Implicit Types (d : dict V) (k : pystr) (v : V).

Lemma dict_get_set_same d k v : dict_get (dict_set d k v) k = Some v.
Proof.
  induction d as [|[k' v'] d IH]; simpl.
  - now rewrite pystr_eqb_refl.
  - destruct (pystr_eqb k k') eqn:E; simpl; rewrite E; auto.
Qed.

Lemma dict_get_set_other d k v k' :
  k' <> k -> dict_get (dict_set d k v) k' = dict_get d k'.
Proof.
  intros Hk. apply pystr_eqb_neq in Hk.
  induction d as [|[k0 v0] d IH]; simpl.
  - now rewrite Hk.
  - destruct (pystr_eqb k k0) eqn:E; simpl.
    + apply pystr_eqb_eq in E. subst k0. now rewrite Hk.
    + now rewrite IH.
Qed.

Lemma dict_get_keys d k : dict_get d k <> None <-> In k (dict_keys d).
Proof.
  induction d as [|[k' v'] d IH]; simpl; [tauto|].
  destruct (pystr_eqb k k') eqn:E.
  - apply pystr_eqb_eq in E. subst. split; [auto | discriminate].
  - apply pystr_eqb_neq in E. rewrite IH. split; [auto|]. intros [H|H]; congruence.
Qed.

(** Writing a key keeps the keys it finds and adds a new one at the end. *)
Lemma dict_keys_set_old d k v :
  In k (dict_keys d) -> dict_keys (dict_set d k v) = dict_keys d.
Proof.
  induction d as [|[k' v'] d IH]; simpl; [tauto|].
  destruct (pystr_eqb k k') eqn:E; [reflexivity|].
  apply pystr_eqb_neq in E. intros [H|H]; [congruence|].
  simpl. f_equal. now apply IH.
Qed.

Lemma dict_keys_set_new d k v :
  ~ In k (dict_keys d) -> dict_keys (dict_set d k v) = dict_keys d ++ [k].
Proof.
  induction d as [|[k' v'] d IH]; simpl; [reflexivity|].
  intros H. destruct (pystr_eqb k k') eqn:E.
  - apply pystr_eqb_eq in E. subst. tauto.
  - simpl. f_equal. apply IH. tauto.
Qed.

Lemma dict_keys_set_in d k v k' :
  In k' (dict_keys (dict_set d k v)) <-> k' = k \/ In k' (dict_keys d).
Proof.
  destruct (in_dec (list_eq_dec N.eq_dec) k (dict_keys d)) as [i|n].
  - rewrite dict_keys_set_old by exact i. split; [auto|]. intros [->|H]; auto.
  - rewrite dict_keys_set_new by exact n. rewrite in_app_iff. simpl.
    split; intros H; intuition congruence.
Qed.

Lemma dict_keys_set_nodup d k v :
  NoDup (dict_keys d) -> NoDup (dict_keys (dict_set d k v)).
Proof.
  intros H. destruct (in_dec (list_eq_dec N.eq_dec) k (dict_keys d)) as [i|n].
  - now rewrite dict_keys_set_old.
  - rewrite dict_keys_set_new by exact n.
    apply NoDup_app; [exact H | repeat constructor; simpl; tauto |].
    intros x Hx [<-|[]]. contradiction.
Qed.
End DictFacts.

Lemma pystr_leb_total a b : pystr_leb a b = true \/ pystr_leb b a = true.
Proof.
  revert b. induction a as [|x a IH]; intros [|y b]; simpl; auto.
  rewrite (N.eqb_sym y x). destruct (N.eqb_spec x y); [apply IH|].
  rewrite !N.ltb_lt. lia.
Qed.

Lemma pystr_leb_trans a b c :
  pystr_leb a b = true -> pystr_leb b c = true -> pystr_leb a c = true.
Proof.
  revert b c. induction a as [|x a IH]; intros [|y b] [|z c]; simpl; auto;
    try discriminate.
  destruct (N.eqb_spec x y), (N.eqb_spec y z), (N.eqb_spec x z);
    rewrite ?N.ltb_lt; subst; try lia; eauto.
Qed.

Lemma insert_sorted_perm x l : Permutation (insert_sorted x l) (x :: l).
Proof.
  induction l as [|y l IH]; simpl; [reflexivity|].
  destruct (pystr_leb x y); [reflexivity|].
  rewrite IH. apply perm_swap.
Qed.

Lemma sorted_perm l : Permutation (sorted l) l.
Proof.
  induction l as [|x l IH]; simpl; [reflexivity|].
  rewrite insert_sorted_perm. now constructor.
Qed.

Lemma insert_sorted_sorted x l :
  StronglySorted (fun a b => pystr_leb a b = true) l ->
  StronglySorted (fun a b => pystr_leb a b = true) (insert_sorted x l).
Proof.
  induction 1 as [|y l Hs IH Hy]; simpl; [repeat constructor|].
  destruct (pystr_leb x y) eqn:E.
  - constructor; [now constructor|]. constructor; [exact E|].
    eapply Forall_impl; [|exact Hy]. intros z Hz. eapply pystr_leb_trans; eauto.
  - constructor; [exact IH|].
    eapply Permutation_Forall; [symmetry; apply insert_sorted_perm|].
    constructor; [|exact Hy].
    destruct (pystr_leb_total x y); congruence.
Qed.

Lemma sorted_sorted l : StronglySorted (fun a b => pystr_leb a b = true) (sorted l).
Proof.
  induction l as [|x l IH]; simpl; [constructor | now apply insert_sorted_sorted].
Qed.

(** Sorting distinct keys gives a strictly ascending list of the same keys. *)
Lemma sorted_strict l : NoDup l -> StronglySorted pystr_lt (sorted l).
Proof.
  intros Hnd.
  assert (Hnd' : NoDup (sorted l)).
  { eapply Permutation_NoDup; [symmetry; apply sorted_perm | exact Hnd]. }
  pose proof (sorted_sorted l) as Hs. revert Hnd'.
  induction Hs as [|y l' Hs IH Hy]; intros Hnd'; constructor.
  - apply IH. now inversion Hnd'.
  - inversion Hnd' as [|? ? Hnot _]; subst.
    rewrite Forall_forall in *. intros z Hz. split; [auto|].
    intros ->. contradiction.
Qed.

(** ** The loops of the extractor *)

(** *** Progress and fuel: no loop is cut short by its bound *)

Lemma accumulate_text_ge fuel lines i parts :
  (i <= snd (accumulate_text fuel lines i parts))%nat.
Proof.
  revert i parts. induction fuel as [|fuel IH]; intros i parts; simpl; [lia|].
  destruct (i <? length lines)%nat; [|simpl; lia].
  destruct (is_match OPTION_RE _); [simpl; lia|].
  destruct (is_match QUESTION_START_RE _); [simpl; lia|].
  etransitivity; [|apply IH]. lia.
Qed.

Lemma coalesce_ge fuel lines j parts :
  (j <= snd (coalesce fuel lines j parts))%nat.
Proof.
  revert j parts. induction fuel as [|fuel IH]; intros j parts; simpl; [lia|].
  destruct (j <? length lines)%nat; [|simpl; lia].
  destruct (negb _); [etransitivity; [|apply IH]; lia|].
  destruct (_ || _); [simpl; lia|].
  etransitivity; [|apply IH]. lia.
Qed.

Lemma read_option_gt lines i m : (i < snd (read_option lines i m))%nat.
Proof.
  unfold read_option.
  pose proof (coalesce_ge (length lines) lines (S i) []) as H.
  destruct (coalesce _ _ _ _) as [cont_parts j]. simpl in *. lia.
Qed.

Lemma gather_options_ge fuel lines i opts :
  (i <= snd (gather_options fuel lines i opts))%nat.
Proof.
  revert i opts. induction fuel as [|fuel IH]; intros i opts; simpl; [lia|].
  destruct (i <? length lines)%nat; [|simpl; lia].
  destruct (re_match OPTION_RE _) as [m|].
  - pose proof (read_option_gt lines i m) as H.
    destruct (read_option lines i m) as [[letter text] j]. simpl in H.
    etransitivity; [|apply IH]. lia.
  - destruct (is_match _ _); [simpl; lia|].
    etransitivity; [|apply IH]. lia.
Qed.

Lemma read_question_gt lines i m : (i < snd (read_question lines i m))%nat.
Proof.
  unfold read_question.
  pose proof (accumulate_text_ge (length lines) lines (S i)
                [strip (group 2 m)]) as H1.
  destruct (accumulate_text _ _ _ _) as [parts i1].
  pose proof (gather_options_ge (length lines) lines i1 []) as H2.
  destruct (gather_options _ _ _ _) as [opts i2]. simpl in *. lia.
Qed.

(** Both bounds cover the lines left: either the cursor is past the end and
    both loops stop, or both take the same step. *)
Ltac same_step i lines :=
  simpl; try reflexivity;
  destruct (Nat.ltb_spec i (length lines)); try reflexivity; try lia.

Lemma accumulate_text_fuel f1 f2 lines i parts :
  (length lines - i <= f1)%nat -> (length lines - i <= f2)%nat ->
  accumulate_text f1 lines i parts = accumulate_text f2 lines i parts.
Proof.
  revert f2 i parts. induction f1 as [|f1 IH]; intros [|f2] i parts H1 H2;
    same_step i lines.
  destruct (is_match OPTION_RE _); [reflexivity|].
  destruct (is_match QUESTION_START_RE _); [reflexivity|].
  apply IH; lia.
Qed.

Lemma coalesce_fuel f1 f2 lines j parts :
  (length lines - j <= f1)%nat -> (length lines - j <= f2)%nat ->
  coalesce f1 lines j parts = coalesce f2 lines j parts.
Proof.
  revert f2 j parts. induction f1 as [|f1 IH]; intros [|f2] j parts H1 H2;
    same_step j lines.
  destruct (negb _); [apply IH; lia|].
  destruct (_ || _); [reflexivity|].
  apply IH; lia.
Qed.

Lemma gather_options_fuel f1 f2 lines i opts :
  (length lines - i <= f1)%nat -> (length lines - i <= f2)%nat ->
  gather_options f1 lines i opts = gather_options f2 lines i opts.
Proof.
  revert f2 i opts. induction f1 as [|f1 IH]; intros [|f2] i opts H1 H2;
    same_step i lines.
  destruct (re_match OPTION_RE _) as [m|].
  - pose proof (read_option_gt lines i m) as Hgt.
    destruct (read_option lines i m) as [[letter text] j]. simpl in Hgt.
    apply IH; lia.
  - destruct (is_match _ _); [reflexivity|]. apply IH; lia.
Qed.

Lemma questions_loop_fuel f1 f2 lines y i qs :
  (length lines - i <= f1)%nat -> (length lines - i <= f2)%nat ->
  questions_loop f1 lines y i qs = questions_loop f2 lines y i qs.
Proof.
  revert f2 i qs. induction f1 as [|f1 IH]; intros [|f2] i qs H1 H2;
    same_step i lines.
  destruct (negb _); [apply IH; lia|].
  destruct (re_match QUESTION_START_RE _) as [m|]; [|apply IH; lia].
  pose proof (read_question_gt lines i m) as Hgt.
  destruct (read_question lines i m) as [[text opts] i']. simpl in Hgt.
  destruct (negb _); apply IH; lia.
Qed.

(** Any bound from the length of the block on gives the result of
    [parse_questions_from_block]. *)
Lemma parse_questions_from_block_fuel fuel lines y :
  (length lines <= fuel)%nat ->
  questions_loop fuel lines y 0 [] = parse_questions_from_block lines y.
Proof.
  intros H. unfold parse_questions_from_block.
  apply questions_loop_fuel; lia.
Qed.

(** *** The options dictionary *)

Lemma upper_letter c :
  (((65 <=? c) && (c <=? 69)) || ((97 <=? c) && (c <=? 101))) = true ->
  In (upper [c]) LETTERS.
Proof.
  intros H.
  assert (E : c = 65 \/ c = 66 \/ c = 67 \/ c = 68 \/ c = 69 \/
              c = 97 \/ c = 98 \/ c = 99 \/ c = 100 \/ c = 101).
  { apply orb_prop in H. destruct H as [G|G]; apply andb_prop in G;
      destruct G as [G1 G2]; apply N.leb_le in G1; apply N.leb_le in G2; lia. }
  clear H. unfold LETTERS.
  destruct E as [E|[E|[E|[E|[E|[E|[E|[E|[E|E]]]]]]]]]; subst c; vm_compute; tauto.
Qed.

Lemma read_option_letter lines i nl m :
  re_match OPTION_RE nl = Some m ->
  In (fst (fst (read_option lines i m))) LETTERS.
Proof.
  intros H. apply option_match_inv in H.
  destruct H as (a & c & d & w & t & b & _ & Hc & ->).
  unfold read_option. destruct (coalesce _ _ _ _) as [cont_parts j]. simpl fst.
  now apply upper_letter.
Qed.

(** The dictionary only ever holds the five letters, each once. *)
Lemma gather_options_keys fuel lines i opts :
  incl (dict_keys opts) LETTERS -> NoDup (dict_keys opts) ->
  incl (dict_keys (fst (gather_options fuel lines i opts))) LETTERS /\
  NoDup (dict_keys (fst (gather_options fuel lines i opts))).
Proof.
  revert i opts. induction fuel as [|fuel IH]; intros i opts Hi Hn; simpl; [auto|].
  destruct (i <? length lines)%nat; [|auto].
  destruct (re_match OPTION_RE _) as [m|] eqn:E.
  - pose proof (read_option_letter lines i _ _ E) as Hl.
    destruct (read_option lines i m) as [[letter text] j]. simpl in Hl.
    apply IH; [|now apply dict_keys_set_nodup].
    intros k Hk. apply dict_keys_set_in in Hk. destruct Hk as [->|Hk]; auto.
  - destruct (is_match _ _); [auto|]. now apply IH.
Qed.

(** The dictionary is the result of the assignments, in their order. *)
Lemma gather_options_trace fuel lines i opts :
  fst (gather_options fuel lines i opts) =
  fold_left (fun d kv => dict_set d (fst kv) (snd kv))
    (option_lines fuel lines i) opts.
Proof.
  revert i opts. induction fuel as [|fuel IH]; intros i opts; simpl; [reflexivity|].
  destruct (i <? length lines)%nat; [|reflexivity].
  destruct (re_match OPTION_RE _) as [m|].
  - destruct (read_option lines i m) as [[letter text] j]. simpl. apply IH.
  - destruct (is_match _ _); [reflexivity | apply IH].
Qed.

(** After a sequence of assignments a key holds what its last assignment
    wrote. *)
Lemma fold_set_last (tr : list (pystr * pystr)) (d : dict pystr) k v :
  dict_get (fold_left (fun d kv => dict_set d (fst kv) (snd kv)) tr d) k = Some v
  <->
  (exists tr1 tr2, tr = tr1 ++ (k, v) :: tr2 /\ ~ In k (map fst tr2))
  \/ (~ In k (map fst tr) /\ dict_get d k = Some v).
Proof.
  revert d. induction tr as [|[k0 v0] tr IH]; intros d; simpl.
  - split; [auto|]. intros [(tr1 & tr2 & E & _)|[_ H]]; [|exact H].
    now destruct tr1.
  - rewrite IH. split.
    + intros [(tr1 & tr2 & -> & Hn)|[Hn Hg]].
      * left. exists ((k0, v0) :: tr1), tr2. now split.
      * destruct (list_eq_dec N.eq_dec k k0) as [->|Hk].
        -- rewrite dict_get_set_same in Hg. injection Hg as ->.
           left. exists [], tr. now split.
        -- rewrite dict_get_set_other in Hg by exact Hk.
           right. split; [|exact Hg]. intros [H|H]; [congruence | contradiction].
    + intros [(tr1 & tr2 & E & Hn)|[Hn Hg]].
      * destruct tr1 as [|p tr1]; simpl in E; injection E as E1 E2; subst.
        -- right. split; [exact Hn | apply dict_get_set_same].
        -- left. now exists tr1, tr2.
      * right. split; [tauto|]. rewrite dict_get_set_other; [exact Hg|].
        intros ->. tauto.
Qed.

Lemma fold_set_keys (tr : list (pystr * pystr)) (d : dict pystr) k :
  In k (dict_keys (fold_left (fun d kv => dict_set d (fst kv) (snd kv)) tr d))
  <-> In k (map fst tr) \/ In k (dict_keys d).
Proof.
  revert d. induction tr as [|[k0 v0] tr IH]; intros d; simpl; [tauto|].
  rewrite IH, dict_keys_set_in. intuition congruence.
Qed.

Lemma order_options_eq opts :
  order_options opts = map (dict_item opts) (sorted (dict_keys opts)).
Proof. unfold order_options. now destruct opts. Qed.

(** *** The outer loop *)

Lemma truthy_true {A : Type} (s : list A) : truthy s = true <-> s <> [].
Proof. destruct s; simpl; split; congruence. Qed.

(** The record the outer loop appends for the question found at line [i]. *)
Lemma questions_loop_inv (P : Question -> Prop) lines y :
  (forall i m_q,
      (i < length lines)%nat ->
      re_match QUESTION_START_RE (line_at lines i) = Some m_q ->
      fst (fst (read_question lines i m_q)) <> [] ->
      P {| question := fst (fst (read_question lines i m_q));
           options := order_options (snd (fst (read_question lines i m_q)));
           answer := None;
           year := year_or_none y |}) ->
  forall fuel i qs,
    Forall P qs -> Forall P (questions_loop fuel lines y i qs).
Proof.
  intros HP. induction fuel as [|fuel IH]; intros i qs Hqs; simpl; [exact Hqs|].
  destruct (Nat.ltb_spec i (length lines)) as [Hi|Hi]; [|exact Hqs].
  destruct (negb (truthy (line_at lines i))); [now apply IH|].
  destruct (re_match QUESTION_START_RE _) as [m_q|] eqn:E; [|now apply IH].
  specialize (HP i m_q Hi E).
  destruct (read_question lines i m_q) as [[text opts] i']. simpl in HP.
  destruct (truthy text) eqn:Ht; simpl; [|now apply IH].
  apply IH. apply Forall_app. split; [exact Hqs|].
  constructor; [|constructor]. apply HP. now apply truthy_true.
Qed.

Lemma emitted_provenance lines y q :
  In q (parse_questions_from_block lines y) ->
  exists i m_q,
    (i < length lines)%nat /\
    re_match QUESTION_START_RE (line_at lines i) = Some m_q /\
    question q <> [] /\
    q = {| question := fst (fst (read_question lines i m_q));
           options := order_options (snd (fst (read_question lines i m_q)));
           answer := None;
           year := year_or_none y |}.
Proof.
  intros Hq. unfold parse_questions_from_block in Hq.
  assert (HF : Forall
    (fun q => exists i m_q,
       (i < length lines)%nat /\
       re_match QUESTION_START_RE (line_at lines i) = Some m_q /\
       question q <> [] /\
       q = {| question := fst (fst (read_question lines i m_q));
              options := order_options (snd (fst (read_question lines i m_q)));
              answer := None;
              year := year_or_none y |})
    (questions_loop (length lines) lines y 0 [])).
  { apply questions_loop_inv; [|constructor].
    intros i m_q Hi E Ht. exists i, m_q. simpl. auto. }
  rewrite Forall_forall in HF. exact (HF q Hq).
Qed.

Lemma read_question_text lines i m :
  exists parts,
    fst (fst (read_question lines i m)) =
    strip (normalize_line (join (U " ") parts)).
Proof.
  unfold read_question.
  destruct (accumulate_text _ _ _ _) as [parts i1].
  destruct (gather_options _ _ _ _) as [opts i2]. simpl. now exists parts.
Qed.

Lemma read_question_opts lines i m :
  exists i1,
    snd (fst (read_question lines i m)) =
    fst (gather_options (length lines) lines i1 []).
Proof.
  unfold read_question.
  destruct (accumulate_text _ _ _ _) as [parts i1].
  exists i1. now destruct (gather_options _ _ _ _) as [opts i2].
Qed.

(** ** Question records *)

(** C3.  Every record the extractor emits comes from a question-start line
    of the block and carries the text accumulated for it, which is not empty
    and is in normalized form.  Hence a question whose accumulated text
    normalizes to the empty string has no record. *)
Theorem emitted_question_nonempty lines default_year q :
  In q (parse_questions_from_block lines default_year) ->
  question q <> [] /\
  normalize_line (question q) = question q /\
  exists i m_q,
    (i < length lines)%nat /\
    re_match QUESTION_START_RE (line_at lines i) = Some m_q /\
    question q = fst (fst (read_question lines i m_q)).
Proof.
  intros Hq. apply emitted_provenance in Hq.
  destruct Hq as (i & m_q & Hi & E & Hne & ->). simpl in *.
  split; [exact Hne|]. split; [|now exists i, m_q].
  destruct (read_question_text lines i m_q) as [parts ->].
  now rewrite strip_normalize, normalize_idem.
Qed.

Lemma emitted_question_nonempty_witness :
  question powerhouse <> [] /\
  normalize_line (question powerhouse) = question powerhouse /\
  exists i m_q,
    (i < length scenario1_block)%nat /\
    re_match QUESTION_START_RE (line_at scenario1_block i) = Some m_q /\
    question powerhouse = fst (fst (read_question scenario1_block i m_q)).
Proof.
  apply (emitted_question_nonempty scenario1_block (U "2022") powerhouse).
  vm_compute. auto.
Defined.

(** A line that looks like a question number but carries no text, here a
    page number followed by options, leaves no record. *)
Example page_number_dropped :
  parse_questions_from_block [U "12"; U "A) stray"; U " "] (U "2022") = [].
Proof. reflexivity. Qed.

Lemma emitted_options lines y q :
  In q (parse_questions_from_block lines y) ->
  exists i,
    options q =
    map (dict_item (fst (gather_options (length lines) lines i [])))
      (sorted (dict_keys (fst (gather_options (length lines) lines i [])))).
Proof.
  intros Hq. apply emitted_provenance in Hq.
  destruct Hq as (i & m_q & _ & _ & _ & ->). simpl.
  destruct (read_question_opts lines i m_q) as [i1 ->].
  exists i1. apply order_options_eq.
Qed.

Lemma gathered_keys lines i :
  incl (dict_keys (fst (gather_options (length lines) lines i []))) LETTERS /\
  NoDup (dict_keys (fst (gather_options (length lines) lines i []))).
Proof.
  apply gather_options_keys; [intros k [] | constructor].
Qed.

(** C4.  The options of every emitted record are the texts held for the
    letters of the option lines gathered for its question, listed in strictly
    ascending order of letter, whatever the order of those lines in the
    block. *)
Theorem options_sorted_by_letter lines default_year q :
  In q (parse_questions_from_block lines default_year) ->
  exists i ordered_letters,
    StronglySorted pystr_lt ordered_letters /\
    (forall k, In k ordered_letters <->
               In k (map fst (option_lines (length lines) lines i))) /\
    options q =
    map (dict_item (fst (gather_options (length lines) lines i [])))
      ordered_letters.
Proof.
  intros Hq. destruct (emitted_options _ _ _ Hq) as [i E].
  exists i, (sorted (dict_keys (fst (gather_options (length lines) lines i [])))).
  split; [|split; [|exact E]].
  - apply sorted_strict, gathered_keys.
  - intros k. split; intros H.
    + apply (Permutation_in _ (sorted_perm _)) in H.
      rewrite gather_options_trace in H. apply fold_set_keys in H.
      now destruct H as [H|[]].
    + apply (Permutation_in _ (Permutation_sym (sorted_perm _))).
      rewrite gather_options_trace. apply fold_set_keys. now left.
Qed.

Lemma options_sorted_by_letter_witness :
  exists i ordered_letters,
    StronglySorted pystr_lt ordered_letters /\
    (forall k, In k ordered_letters <->
               In k (map fst (option_lines (length shuffled_block)
                                shuffled_block i))) /\
    options shuffled_question =
    map (dict_item (fst (gather_options (length shuffled_block)
                           shuffled_block i [])))
      ordered_letters.
Proof.
  apply (options_sorted_by_letter shuffled_block [] shuffled_question).
  vm_compute. auto.
Defined.

(** Letters out of order, a repeated letter and a wrapped option. *)
Example shuffled_block_parsed :
  parse_questions_from_block shuffled_block [] = [shuffled_question].
Proof. reflexivity. Qed.

(** C10.  An emitted record has at most five options, one for each distinct
    letter among A to E met in the option lines of its question, and the text
    kept for a letter is the one its last option line assigned. *)
Theorem options_at_most_five_last_wins lines default_year q :
  In q (parse_questions_from_block lines default_year) ->
  (length (options q) <= 5)%nat /\
  exists i letters,
    NoDup letters /\ incl letters LETTERS /\
    options q =
    map (dict_item (fst (gather_options (length lines) lines i []))) letters /\
    forall k,
      In k letters ->
      exists tr1 tr2,
        option_lines (length lines) lines i =
        tr1 ++ (k, dict_item (fst (gather_options (length lines) lines i [])) k)
            :: tr2 /\
        ~ In k (map fst tr2).
Proof.
  intros Hq. destruct (emitted_options _ _ _ Hq) as [i E].
  destruct (gathered_keys lines i) as [Hincl Hnd].
  set (opts := fst (gather_options (length lines) lines i [])) in *.
  pose proof (sorted_perm (dict_keys opts)) as Hp.
  split.
  - rewrite E, length_map, (Permutation_length Hp).
    change 5%nat with (length LETTERS). now apply NoDup_incl_length.
  - exists i, (sorted (dict_keys opts)). repeat split.
    + eapply Permutation_NoDup; [symmetry; exact Hp | exact Hnd].
    + intros k Hk. apply Hincl. eapply Permutation_in; eauto.
    + exact E.
    + intros k Hk. apply (Permutation_in _ Hp) in Hk.
      apply dict_get_keys in Hk.
      destruct (dict_get opts k) as [v|] eqn:G; [|congruence].
      assert (Ev : dict_item (fst (gather_options (length lines) lines i [])) k
                   = v) by (unfold dict_item; fold opts; now rewrite G).
      rewrite Ev. unfold opts in G. rewrite gather_options_trace in G.
      apply fold_set_last in G. destruct G as [G|[_ G]]; [exact G | discriminate].
Qed.

Lemma options_at_most_five_last_wins_witness :
  (length (options shuffled_question) <= 5)%nat /\
  exists i letters,
    NoDup letters /\ incl letters LETTERS /\
    options shuffled_question =
    map (dict_item (fst (gather_options (length shuffled_block)
                           shuffled_block i []))) letters /\
    forall k,
      In k letters ->
      exists tr1 tr2,
        option_lines (length shuffled_block) shuffled_block i =
        tr1 ++ (k, dict_item (fst (gather_options (length shuffled_block)
                                     shuffled_block i [])) k)
            :: tr2 /\
        ~ In k (map fst tr2).
Proof.
  apply (options_at_most_five_last_wins shuffled_block [] shuffled_question).
  vm_compute. auto.
Defined.

(** ** Wrapped option lines *)

Lemma line_at_middle before raw rest :
  line_at (before ++ raw :: rest) (length before) = normalize_line raw.
Proof. unfold line_at. now rewrite nth_middle. Qed.

Lemma length_middle_lt (before : list pystr) raw rest :
  (length before <? length (before ++ raw :: rest))%nat = true.
Proof. apply Nat.ltb_lt. rewrite length_app. simpl. lia. Qed.



Lemma normalize_sp_tidy s : tidy s -> normalize_line (SP :: s) = s.
Proof.
  intros H. unfold normalize_line, strip.
  change (lstrip (SP :: s)) with (lstrip s).
  rewrite (lstrip_tidy _ H), (rstrip_tidy _ H). now apply sub_spaces_tidy.
Qed.

(** The text captured for an option of a normalized line is empty or tidy. *)
Lemma option_text_tidy raw m :
  re_match OPTION_RE (normalize_line raw) = Some m ->
  strip (group 2 m) = [] \/ tidy (strip (group 2 m)).
Proof.
  intros H. apply option_match_inv in H.
  destruct H as (a & c & d & w & t & b & E & _ & ->). simpl group.
  apply strip_spaced.
  destruct (normalize_cases raw) as [E0 | Ht];
    [rewrite E0 in E; now destruct a|].
  apply tidy_spaced in Ht. rewrite E in Ht.
  apply spaced_app_r in Ht.
  change (c :: d :: w ++ t ++ b) with ([c; d] ++ w ++ t ++ b) in Ht.
  apply spaced_app_r, spaced_app_r, spaced_app_l in Ht. exact Ht.
Qed.

Lemma kept_lines_tidy raws :
  Forall tidy (filter truthy (map normalize_line raws)).
Proof.
  induction raws as [|r raws IH]; simpl; [constructor|].
  destruct (normalize_cases r) as [E | Ht].
  - rewrite E. exact IH.
  - destruct (normalize_line r) eqn:E; [now apply tidy_nonempty in Ht|].
    simpl. now constructor.
Qed.




(** ** Section segmenter *)

Lemma seg_loop_app st i a b :
  seg_loop st i (a ++ b) = seg_loop (seg_loop st i a) (i + length a) b.
Proof.
  revert st i. induction a as [|x a IH]; intros st i; simpl.
  - now rewrite Nat.add_0_r.
  - rewrite IH. f_equal. lia.
Qed.

Lemma close_block_shift n st i :
  (n <= i)%nat ->
  close_block (shift_state n st) (S i) = map (shift_block n) (close_block st i).
Proof.
  intros Hi. unfold close_block, shift_state. simpl.
  destruct (last_subject_idx st) as [idx|]; simpl; [|reflexivity].
  destruct (last_subject_key st) as [key|]; simpl; [|reflexivity].
  rewrite map_app. simpl.
  destruct (Nat.ltb_spec i n); [lia | reflexivity].
Qed.

Lemma seg_step_shift n st i raw :
  (n <= i)%nat ->
  seg_step (shift_state n st) (S i) raw = shift_state n (seg_step st i raw).
Proof.
  intros Hi. unfold seg_step.
  destruct (negb (truthy (normalize_line raw))); [reflexivity|].
  destruct (re_match YEAR_HEADER_RE _); [reflexivity|].
  destruct (resolve_subject _); [|reflexivity].
  rewrite close_block_shift by exact Hi.
  unfold shift_state at 2.
  cbn [blocks current_year last_subject_idx last_subject_key option_map].
  destruct (Nat.leb_spec (S i) n); [lia | reflexivity].
Qed.

Lemma seg_loop_shift n lines :
  forall st i,
    (n <= i)%nat ->
    seg_loop (shift_state n st) (S i) lines =
    shift_state n (seg_loop st i lines).
Proof.
  induction lines as [|raw lines IH]; intros st i Hi; simpl; [reflexivity|].
  rewrite seg_step_shift by exact Hi. apply IH. lia.
Qed.

Lemma settled_mono n m st : (n <= m)%nat -> settled n st -> settled m st.
Proof.
  intros Hnm [Hb Hi]. split.
  - eapply Forall_impl; [|exact Hb]. intros [[[y k] s] e]. lia.
  - destruct (last_subject_idx st); [lia | exact I].
Qed.

Lemma seg_step_settled st i raw :
  settled i st -> settled (S i) (seg_step st i raw).
Proof.
  intros H. pose proof (settled_mono i (S i) st (Nat.le_succ_diag_r i) H) as H'.
  unfold seg_step.
  destruct (negb (truthy (normalize_line raw))); [exact H'|].
  destruct (re_match YEAR_HEADER_RE _); [exact H'|].
  destruct (resolve_subject _); [|exact H'].
  destruct H' as [Hb' Hi']. destruct H as [Hb Hi].
  split; simpl; [|lia].
  unfold close_block.
  destruct (last_subject_idx st) as [idx|]; [|exact Hb'].
  destruct (last_subject_key st) as [key|]; [|exact Hb'].
  apply Forall_app. split; [exact Hb'|]. constructor; [lia | constructor].
Qed.

Lemma seg_loop_settled lines :
  forall st i, settled i st -> settled (i + length lines) (seg_loop st i lines).
Proof.
  induction lines as [|raw lines IH]; intros st i H; simpl.
  - now rewrite Nat.add_0_r.
  - replace (i + S (length lines))%nat with (S i + length lines)%nat by lia.
    apply IH. now apply seg_step_settled.
Qed.

Lemma shift_settled n st : settled n st -> shift_state n st = st.
Proof.
  destruct st as [bs y idx key]. intros [Hb Hi]. unfold shift_state. simpl in *.
  f_equal.
  - induction Hb as [|[[[y0 k0] s0] e0] bs [Hs He] Hb IH]; simpl; [reflexivity|].
    rewrite IH. f_equal.
    destruct (Nat.leb_spec s0 n); [|lia].
    destruct (Nat.ltb_spec e0 n); [reflexivity | lia].
  - destruct idx as [idx|]; simpl; [|reflexivity].
    destruct (Nat.leb_spec idx n); [reflexivity | lia].
Qed.

(** A line that is neither blank, nor a year header, nor resolved to a
    subject key leaves the state of the segmenter as it is. *)
Lemma seg_step_skip st i raw :
  is_match YEAR_HEADER_RE (normalize_line raw) = false ->
  resolve_subject (normalize_line raw) = None ->
  seg_step st i raw = st.
Proof.
  intros Hy Hs. unfold seg_step. apply is_match_false in Hy.
  rewrite Hy, Hs. now destruct (negb _).
Qed.

(** C6.  A line that is no year header and that the subject pattern and the
    alias table resolve to no subject key opens no section and closes none:
    the sections of the document with the line are those of the document
    without it, with the indices after the line moved by one. *)
Theorem unresolved_header_transparent pre raw post :
  is_match YEAR_HEADER_RE (normalize_line raw) = false ->
  resolve_subject (normalize_line raw) = None ->
  parse_subject_blocks (pre ++ raw :: post) =
  map (shift_block (length pre)) (parse_subject_blocks (pre ++ post)).
Proof.
  intros Hy Hs. unfold parse_subject_blocks.
  rewrite !seg_loop_app. simpl seg_loop. rewrite (seg_step_skip _ _ _ Hy Hs).
  simpl Nat.add.
  assert (Hst : settled (length pre) (seg_loop seg_init 0 pre)).
  { apply (seg_loop_settled pre seg_init 0). split; simpl; [constructor | exact I]. }
  rewrite <- (shift_settled _ _ Hst) at 1.
  rewrite seg_loop_shift by lia.
  rewrite !length_app. simpl length.
  replace (length pre + S (length post))%nat
    with (S (length pre + length post))%nat by lia.
  apply close_block_shift. lia.
Qed.

Lemma unresolved_header_transparent_witness :
  parse_subject_blocks (paper_head ++ U "MATHEMATICS" :: paper_tail) =
  map (shift_block (length paper_head))
    (parse_subject_blocks (paper_head ++ paper_tail)).
Proof.
  apply (unresolved_header_transparent paper_head (U "MATHEMATICS") paper_tail);
    reflexivity.
Defined.

(** The sections of the sample paper, without and with the stray header. *)
Example paper_blocks :
  parse_subject_blocks (paper_head ++ paper_tail) =
    [ (U "2022", U "biology", 2%nat, 4%nat);
      (U "2022", U "chemistry", 5%nat, 6%nat) ] /\
  parse_subject_blocks (paper_head ++ U "MATHEMATICS" :: paper_tail) =
    [ (U "2022", U "biology", 2%nat, 5%nat);
      (U "2022", U "chemistry", 6%nat, 7%nat) ].
Proof. split; reflexivity. Qed.

(** A header that the subject pattern accepts but that has no alias: the
    entry of the table with two spaces is out of reach of a normalized
    line. *)
Example header_without_alias :
  is_match SUBJECT_LINE_RE (U "GENERAL KNOWLEDGE AND FRENCH") = true /\
  resolve_subject (U "GENERAL KNOWLEDGE AND FRENCH") = None.
Proof. split; reflexivity. Qed.

(** ** Deduplication *)

Lemma dedup_loop_acc items :
  forall seen deduped,
    dedup_loop items seen deduped = deduped ++ dedup_loop items seen [].
Proof.
  induction items as [|it items IH]; intros seen deduped; simpl.
  - now rewrite app_nil_r.
  - destruct (existsb _ seen); [apply IH|].
    rewrite IH, (IH _ ([] ++ [it])), app_assoc. reflexivity.
Qed.

Lemma with_text_app t a b : with_text t (a ++ b) = with_text t a ++ with_text t b.
Proof. apply filter_app. Qed.

Lemma existsb_eqb_true t seen : existsb (pystr_eqb t) seen = true <-> In t seen.
Proof.
  rewrite existsb_exists. split.
  - intros (x & Hx & E). apply pystr_eqb_eq in E. now subst.
  - intros H. exists t. split; [exact H | apply pystr_eqb_refl].
Qed.

Lemma with_text_dedup_loop t items :
  forall seen,
    with_text t (dedup_loop items seen []) =
    if existsb (pystr_eqb t) seen then [] else firstn 1 (with_text t items).
Proof.
  induction items as [|it items IH]; intros seen; simpl.
  - now destruct (existsb _ seen).
  - destruct (existsb (pystr_eqb (question it)) seen) eqn:Es.
    + rewrite IH. destruct (existsb (pystr_eqb t) seen) eqn:Et; [reflexivity|].
      destruct (pystr_eqb (question it) t) eqn:E; [|reflexivity].
      apply pystr_eqb_eq in E. congruence.
    + rewrite dedup_loop_acc, with_text_app, IH. simpl.
      destruct (pystr_eqb (question it) t) eqn:E.
      * apply pystr_eqb_eq in E. subst t. rewrite pystr_eqb_refl, Es. reflexivity.
      * rewrite pystr_eqb_neq in E.
        assert (E' : pystr_eqb t (question it) = false)
          by (apply pystr_eqb_neq; congruence).
        now rewrite E'.
Qed.

(** C5.  Among the records collected for a subject, the output keeps, for
    each question text, the first record with exactly that text and no other:
    later records with the same text are dropped, whatever their year or
    options. *)
Theorem dedup_first_wins items t :
  with_text t (dedup items) = firstn 1 (with_text t items).
Proof. apply (with_text_dedup_loop t items []). Qed.

(** The questions of later sections of a subject come after those already
    collected for it. *)
Lemma collect_step_appends raw_lines per_subject y key start stop :
  bank_of (collect_step raw_lines per_subject (y, key, start, stop)) key =
  bank_of per_subject key
  ++ parse_questions_from_block (slice raw_lines start stop) y.
Proof.
  unfold collect_step, bank_of at 1. rewrite dict_get_set_same.
  f_equal. unfold dict_setdefault, bank_of.
  destruct (dict_get per_subject key) eqn:E; [now rewrite E|].
  now rewrite dict_get_set_same.
Qed.

(** Two sections, two years, one shared question: the record of the first
    section stays. *)
Example two_years_biology :
  map question (bank_of (collect two_years) (U "biology")) =
    [ U "What is the powerhouse of the cell?";
      U "What is the powerhouse of the cell?";
      U "What carries oxygen?" ] /\
  map (fun q => (question q, options q))
    (dedup (bank_of (collect two_years) (U "biology"))) =
    [ (U "What is the powerhouse of the cell?", [U "Nucleus"]);
      (U "What carries oxygen?", []) ].
Proof. split; reflexivity. Qed.

(** ** End to end *)

(** C1.  Scenario 1: one section, biology in 2022, with one question; the
    bank of biology holds exactly the record of that question, and the run
    writes it to the file of biology. *)
Theorem scenario1_biology_bank :
  parse_subject_blocks scenario1 = [(U "2022", U "biology", 2%nat, 6%nat)] /\
  dict_get (collect scenario1) (U "biology") = Some [powerhouse] /\
  dedup [powerhouse] = [powerhouse] /\
  In (Wrote (U "out/biology-full.json") (json_dump [powerhouse]))
     (fst (main (os_fine (join [10] scenario1)) (U "exams.txt") (U "out"))).
Proof. vm_compute. repeat split; auto. Qed.

(** C2.  A line that begins with four digits is taken as a question start:
    the pattern asks for one to three digits and for nothing after them, so
    the fourth digit begins the text.  A year header inside a block leaves a
    record of its own. *)
Theorem four_digits_start_a_question :
  is_match QUESTION_START_RE (U "2022 NATIONAL QUALIFYING EXAM") = true /\
  re_match QUESTION_START_RE (U "2022 NATIONAL QUALIFYING EXAM") =
    Some [(2%nat, U "2 NATIONAL QUALIFYING EXAM"); (1%nat, U "202")] /\
  parse_questions_from_block [U "2022 NATIONAL QUALIFYING EXAM"] [] =
    [ {| question := U "2 NATIONAL QUALIFYING EXAM";
         options := [];
         answer := None;
         year := None |} ].
Proof. vm_compute. repeat split. Qed.

(** ** The run as a whole *)

Lemma set_add_in hash t s x : In x (set_add hash t s) <-> x = t \/ In x s.
Proof.
  induction s as [|y s IH]; simpl; [intuition congruence|].
  destruct (hash t <=? hash y); simpl; [intuition congruence|].
  rewrite IH. intuition congruence.
Qed.

Lemma set_mem_same t s1 s2 :
  (forall x, In x s1 <-> In x s2) -> set_mem t s1 = set_mem t s2.
Proof.
  intros H. unfold set_mem. destruct (existsb (pystr_eqb t) s2) eqn:E2.
  - apply existsb_eqb_true, H. now apply existsb_eqb_true.
  - destruct (existsb (pystr_eqb t) s1) eqn:E1; [|reflexivity].
    apply existsb_eqb_true, H, existsb_eqb_true in E1. congruence.
Qed.

(** Membership is all the loop asks of [seen]: the order the process keeps
    the set in does not show. *)
Lemma dedup_loop_in_eq hash items :
  forall s1 s2 deduped,
    (forall x, In x s1 <-> In x s2) ->
    dedup_loop_in hash items s1 deduped = dedup_loop items s2 deduped.
Proof.
  induction items as [|it items IH]; intros s1 s2 deduped H;
    cbn [dedup_loop_in dedup_loop]; [reflexivity|].
  rewrite (set_mem_same (question it) s1 s2 H). unfold set_mem.
  destruct (existsb (pystr_eqb (question it)) s2); [now apply IH|].
  apply IH. intros x. rewrite set_add_in. simpl. rewrite H.
  intuition congruence.
Qed.

Lemma dedup_in_eq hash items : dedup_in hash items = dedup items.
Proof. apply dedup_loop_in_eq. tauto. Qed.


(** Whatever the process and wherever it stops, its events are the first
    events of the run in which nothing fails, which the banks and the output
    directory fix; a run that returns has them all. *)
Lemma write_banks_prefix env out_dir per_subject :
  exists rest,
    bank_events out_dir per_subject =
    fst (write_banks env out_dir per_subject) ++ rest /\
    (snd (write_banks env out_dir per_subject) = Returned -> rest = []).
Proof.
  induction per_subject as [|[key items] per IH]; simpl.
  - exists []. auto.
  - rewrite dedup_in_eq. destruct (os_write env _ _).
    + destruct (os_print env _).
      * destruct IH as (rest & E & Hr).
        destruct (write_banks env out_dir per) as [evs c]. simpl in *.
        exists rest. split; [now rewrite E | exact Hr].
      * simpl. eexists. split; [reflexivity | discriminate].
    + simpl. eexists. split; [reflexivity | discriminate].
Qed.

Lemma prefixes_comparable (A : Type) (l a b ra rb : list A) :
  l = a ++ ra -> l = b ++ rb ->
  (exists r, a = b ++ r) \/ (exists r, b = a ++ r).
Proof.
  revert l b ra rb. induction a as [|x a IH]; intros l b ra rb Ha Hb.
  - right. now exists b.
  - destruct b as [|y b]; [left; now exists (x :: a)|].
    subst l. simpl in Hb. injection Hb as -> Hb.
    destruct (IH _ b ra rb eq_refl Hb) as [[r ->] | [r ->]];
      [left | right]; now exists r.
Qed.

(** C8.  Two runs on the same input agree, in whatever process each runs
    and whatever fails in either.  The hash function of the process, which
    orders the set [seen], does not show in the banks: the same lines give
    the same list of questions for every key.  And of two runs that read the
    same text, the events of one (the files written with their contents and
    the lines printed, in order) are the first events of the other; if both
    return, they have the same events. *)
Theorem main_deterministic env1 env2 txt_path out_dir :
  os_read env1 txt_path = os_read env2 txt_path ->
  (forall raw_lines,
      deduped_banks env1 raw_lines = deduped_banks env2 raw_lines)
  /\ ((exists rest,
          fst (main env1 txt_path out_dir) =
          fst (main env2 txt_path out_dir) ++ rest)
      \/ (exists rest,
             fst (main env2 txt_path out_dir) =
             fst (main env1 txt_path out_dir) ++ rest))
  /\ (snd (main env1 txt_path out_dir) = Returned ->
      snd (main env2 txt_path out_dir) = Returned ->
      fst (main env1 txt_path out_dir) = fst (main env2 txt_path out_dir)).
Proof.
  intros Hread. split.
  { intros raw_lines. unfold deduped_banks. apply map_ext.
    intros kv. now rewrite !dedup_in_eq. }
  revert Hread. unfold main. intros <-.
  destruct (os_read env1 txt_path) as [text|];
    [|split; [left; now exists [] | reflexivity]].
  destruct (write_banks_prefix env1 out_dir (collect (splitlines text)))
    as (r1 & E1 & H1).
  destruct (write_banks_prefix env2 out_dir (collect (splitlines text)))
    as (r2 & E2 & H2).
  destruct (os_makedirs env1 out_dir), (os_makedirs env2 out_dir); simpl.
  - split; [exact (prefixes_comparable _ _ _ _ _ _ E1 E2)|].
    intros R1 R2. rewrite (H1 R1), app_nil_r in E1.
    rewrite (H2 R2), app_nil_r in E2. congruence.
  - split; [left; eexists; symmetry; apply app_nil_l | discriminate].
  - split; [right; eexists; symmetry; apply app_nil_l | discriminate].
  - split; [left; now exists [] | reflexivity].
Qed.

Lemma main_deterministic_witness :
  (forall raw_lines,
      deduped_banks (os_fine (join [10] two_years)) raw_lines =
      deduped_banks (os_failing_print (join [10] two_years)
                       (count_line 0 (U "out/physics-full.json")))
        raw_lines)
  /\ ((exists rest,
          fst (main (os_fine (join [10] two_years))
                 (U "exams.txt") (U "out")) =
          fst (main (os_failing_print (join [10] two_years)
                       (count_line 0 (U "out/physics-full.json")))
                 (U "exams.txt") (U "out")) ++ rest)
      \/ (exists rest,
             fst (main (os_failing_print (join [10] two_years)
                          (count_line 0 (U "out/physics-full.json")))
                    (U "exams.txt") (U "out")) =
             fst (main (os_fine (join [10] two_years))
                    (U "exams.txt") (U "out")) ++ rest))
  /\ (snd (main (os_fine (join [10] two_years)) (U "exams.txt") (U "out"))
      = Returned ->
      snd (main (os_failing_print (join [10] two_years)
                   (count_line 0 (U "out/physics-full.json")))
             (U "exams.txt") (U "out")) = Returned ->
      fst (main (os_fine (join [10] two_years)) (U "exams.txt") (U "out")) =
      fst (main (os_failing_print (join [10] two_years)
                   (count_line 0 (U "out/physics-full.json")))
             (U "exams.txt") (U "out"))).
Proof.
  apply (main_deterministic
           (os_fine (join [10] two_years))
           (os_failing_print (join [10] two_years)
              (count_line 0 (U "out/physics-full.json")))
           (U "exams.txt") (U "out")).
  reflexivity.
Defined.

(** The two processes of the witness keep [seen] in different orders, and
    the second stops at the line of the third file. *)
Example two_processes :
  fold_right (set_add (os_hash (os_fine []))) [] [U "bb"; U "a"; U "ccc"]
    = [U "a"; U "bb"; U "ccc"] /\
  fold_right (set_add (os_hash (os_failing_print [] []))) []
    [U "bb"; U "a"; U "ccc"]
    = [U "ccc"; U "bb"; U "a"] /\
  written_paths
    (fst (main (os_failing_print (join [10] two_years)
                  (count_line 0 (U "out/physics-full.json")))
            (U "exams.txt") (U "out")))
    = [ U "out/biology-full.json"; U "out/chemistry-full.json";
        U "out/physics-full.json" ] /\
  snd (main (os_failing_print (join [10] two_years)
               (count_line 0 (U "out/physics-full.json")))
         (U "exams.txt") (U "out")) = Raised.
Proof. vm_compute. repeat split. Qed.





(** * Further properties *)

(** ** Lines *)

(** X1.  [normalize_line] is idempotent. *)
Theorem normalize_line_idempotent s :
  normalize_line (normalize_line s) = normalize_line s.
Proof. apply normalize_idem. Qed.

(** X2.  A normalized line is empty, or it starts and ends with a character that
    is not white space and its white space is single spaces (U+0020). *)
Theorem normalize_line_shape s :
  normalize_line s = [] \/ tidy (normalize_line s).
Proof. apply normalize_cases. Qed.

Lemma lstrip_nil_iff s : lstrip s = [] <-> forallb isspace s = true.
Proof.
  induction s as [|c s IH]; simpl; [tauto|].
  destruct (isspace c); simpl; [exact IH | split; discriminate].
Qed.

(** X3.  The lines the loops skip as blank are exactly those made of white space
    only. *)
Theorem normalize_line_blank_iff s :
  normalize_line s = [] <-> forallb isspace s = true.
Proof.
  rewrite <- lstrip_nil_iff. unfold normalize_line, strip.
  destruct (lstrip_cases s) as [E | (c & s' & E & Hc)]; rewrite E.
  - simpl. tauto.
  - rewrite (rstrip_head c s' Hc). simpl. rewrite Hc. split; discriminate.
Qed.

(** ** Patterns *)

(** X4.  The question pattern matches exactly the lines whose first character is
    a decimal digit, however many digits follow. *)
Theorem question_start_first_digit s :
  is_match QUESTION_START_RE s = true <->
  exists c s', s = c :: s' /\ isdecimal c = true.
Proof. apply question_start_iff. Qed.

(** X5.  The key an option line is stored under is one of the five upper-case
    letters, whichever case the line has it in. *)
Theorem option_letter_upper nl m_opt :
  re_match OPTION_RE nl = Some m_opt ->
  In (upper (group 1 m_opt)) LETTERS.
Proof.
  intros H. apply option_match_inv in H.
  destruct H as (a & c & d & w & t & b & _ & Hc & ->).
  now apply upper_letter.
Qed.

Lemma option_letter_upper_witness :
  In (upper (group 1 [(2%nat, U "Mitochondria"); (1%nat, U "b")])) LETTERS.
Proof.
  apply (option_letter_upper (U "- b. Mitochondria")). reflexivity.
Defined.

(** Every group a match captures is a piece of what the pattern consumed,
    and the continuation runs on the rest. *)
Lemma rmatch_inv (A : Type) r :
  forall s g (k : pystr -> groups -> option A) x,
    rmatch r s g k = Some x ->
    exists u s' new,
      s = u ++ s' /\ k s' (new ++ g) = Some x /\
      Forall (fun p : nat * pystr => exists a b, u = a ++ snd p ++ b) new.
Proof.
  induction r as [|p|r1 IH1 r2 IH2|r1 IH1 r2 IH2|p|p lo hi|n r1 IH1|];
    intros s g k x H; cbn [rmatch] in H.
  - exists [], s, []. auto.
  - destruct s as [|c s]; [discriminate|]. destruct (p c); [|discriminate].
    exists [c], s, []. auto.
  - apply IH1 in H. destruct H as (u1 & s1 & new1 & -> & H & F1).
    apply IH2 in H. destruct H as (u2 & s2 & new2 & -> & H & F2).
    exists (u1 ++ u2), s2, (new2 ++ new1).
    rewrite <- !app_assoc. repeat split; [exact H|].
    apply Forall_app. split; eapply Forall_impl; try eassumption;
      intros q (a & b & ->).
    + exists (u1 ++ a), b. now rewrite <- !app_assoc.
    + exists a, (b ++ u2). now rewrite <- !app_assoc.
  - destruct (rmatch r1 s g k) as [y|] eqn:E.
    + injection H as ->. now apply IH1.
    + now apply IH2.
  - apply star_greedy_inv in H. destruct H as (a & s' & -> & _ & H).
    exists a, s', []. auto.
  - apply rep_greedy_inv in H. destruct H as (a & s' & -> & _ & _ & H).
    exists a, s', []. auto.
  - apply IH1 in H. destruct H as (u & s' & new & -> & H & F).
    rewrite firstn_length_diff in H.
    exists u, s', ((n, u) :: new). repeat split; [exact H|].
    constructor; [exists [], []; simpl; now rewrite app_nil_r | exact F].
  - exists [], s, []. repeat split; [|constructor].
    repeat match type of H with
           | match ?c with _ => _ end = _ => destruct c
           end; try discriminate; exact H.
Qed.

Lemma rmatch_no_groups (A : Type) r :
  no_groups r = true ->
  forall s g (k : pystr -> groups -> option A) x,
    rmatch r s g k = Some x -> exists s', k s' g = Some x.
Proof.
  induction r as [|p|r1 IH1 r2 IH2|r1 IH1 r2 IH2|p|p lo hi|n r1 IH1|];
    intros Hn s g k x H; cbn [rmatch no_groups] in *; try discriminate.
  - eauto.
  - destruct s as [|c s]; [discriminate|]. destruct (p c); [eauto | discriminate].
  - apply andb_prop in Hn. destruct Hn as [H1 H2].
    apply (IH1 H1) in H. destruct H as [s1 H]. now apply (IH2 H2) in H.
  - apply andb_prop in Hn. destruct Hn as [H1 H2].
    destruct (rmatch r1 s g k) as [y|] eqn:E.
    + injection H as ->. now apply (IH1 H1) in E.
    + now apply (IH2 H2) in H.
  - apply star_greedy_inv in H. destruct H as (a & s' & _ & _ & H). eauto.
  - apply rep_greedy_inv in H. destruct H as (a & s' & _ & _ & _ & H). eauto.
  - exists s.
    repeat match type of H with
           | match ?c with _ => _ end = _ => destruct c
           end; try discriminate; exact H.
Qed.

Lemma isspace_bounds c : isspace c = true -> c <= 32 \/ 133 <= c.
Proof.
  unfold isspace.
  rewrite !orb_true_iff, !andb_true_iff, !N.leb_le, !N.eqb_eq. lia.
Qed.

Lemma isspace_upper_char c : isspace (upper_char c) = isspace c.
Proof.
  assert (R : forall x, 33 <= x <= 132 -> isspace x = false).
  { intros x Hx. destruct (isspace x) eqn:E; [|reflexivity].
    apply isspace_bounds in E. lia. }
  unfold upper_char.
  destruct ((97 <=? c) && (c <=? 122)) eqn:E.
  - apply andb_prop in E. destruct E as [E1 E2].
    apply N.leb_le in E1. apply N.leb_le in E2.
    rewrite !R; [reflexivity | lia | lia].
  - destruct (N.eqb_spec c 305) as [->|_]; [reflexivity|].
    destruct (N.eqb_spec c 383) as [->|_]; reflexivity.
Qed.

Lemma upper_tidy s : tidy s -> tidy (upper s).
Proof.
  induction 1 as [c Hc | c s Hc Hs IH | c s Hc Hs IH]; simpl.
  - apply tidy_one. now rewrite isspace_upper_char.
  - apply tidy_cons; [now rewrite isspace_upper_char | exact IH].
  - apply (tidy_sp (upper_char c) (upper s));
      [now rewrite isspace_upper_char | exact IH].
Qed.

Lemma last_app_cons (u : pystr) c v d : last (u ++ c :: v) d = last (c :: v) d.
Proof.
  induction u as [|x u IH]; [reflexivity|].
  change ((x :: u) ++ c :: v) with (x :: (u ++ c :: v)).
  destruct (u ++ c :: v) eqn:E; [now destruct u | exact IH].
Qed.

Lemma tidy_last s : tidy s -> isspace (last s SP) = false.
Proof.
  induction 1 as [c Hc | c s Hc Hs IH | c s Hc Hs IH].
  - exact Hc.
  - destruct s; [now apply tidy_nonempty in Hs | exact IH].
  - destruct s; [now apply tidy_nonempty in Hs | exact IH].
Qed.

Lemma last_all_space v d :
  v <> [] -> forallb isspace v = true -> isspace (last v d) = true.
Proof.
  induction v as [|c v IH]; [congruence|]. intros _ H. simpl in H.
  apply andb_prop in H. destruct H as [Hc Hv].
  destruct v as [|c' v]; [exact Hc|]. apply IH; [discriminate | exact Hv].
Qed.

(** A tidy line has no white space at its end. *)
Lemma tidy_no_space_tail u v :
  tidy (u ++ v) -> forallb isspace v = true -> v = [].
Proof.
  intros Ht Hv. destruct v as [|c v]; [reflexivity|]. exfalso.
  apply tidy_last in Ht. rewrite last_app_cons in Ht.
  rewrite (last_all_space (c :: v) SP) in Ht; [discriminate | discriminate | exact Hv].
Qed.

Lemma subject_match_inv line m :
  re_match SUBJECT_LINE_RE line = Some m ->
  exists u w tail new,
    line = u ++ w ++ tail /\ forallb isspace w = true /\
    (tail = [] \/ tail = [10]) /\ m = (1%nat, u) :: new.
Proof.
  unfold re_match, SUBJECT_LINE_RE, Cat. cbn [fold_right].
  match goal with |- context [Grp 1 ?X] => set (alts := X) end.
  cbn [rmatch]. intros H.
  apply rmatch_inv in H. destruct H as (u & s' & new & -> & H & _).
  apply star_greedy_inv in H. destruct H as (w & tail & -> & Hw & H).
  rewrite firstn_length_diff in H.
  exists u, w, tail, (new ++ []).
  repeat match type of H with
         | match ?c with _ => _ end = _ => destruct c
         end; try discriminate; injection H as <-; auto.
Qed.

Lemma subject_group_whole raw m_sub :
  re_match SUBJECT_LINE_RE (normalize_line raw) = Some m_sub ->
  group 1 m_sub = normalize_line raw.
Proof.
  intros H. destruct (normalize_cases raw) as [E | Ht].
  - rewrite E in H. discriminate H.
  - apply subject_match_inv in H.
    destruct H as (u & w & tail & new & E & Hw & Htail & ->).
    rewrite E in Ht. cbn [group Nat.eqb].
    assert (Hv : w ++ tail = []).
    { apply (tidy_no_space_tail u _ Ht). rewrite forallb_app, Hw.
      now destruct Htail as [-> | ->]. }
    rewrite E, Hv. now rewrite app_nil_r.
Qed.

(** X6.  On a normalized line the subject pattern captures the whole line: what
    is looked up in the alias table is the line in upper case. *)
Theorem subject_match_whole_line raw m_sub :
  re_match SUBJECT_LINE_RE (normalize_line raw) = Some m_sub ->
  group 1 m_sub = normalize_line raw.
Proof. apply subject_group_whole. Qed.

Lemma subject_match_whole_line_witness :
  group 1 [(1%nat, U "French language")] = normalize_line (U "  French   language ").
Proof.
  apply (subject_match_whole_line (U "  French   language ")). reflexivity.
Defined.

(** X7.  Two entries of the alias table are out of reach: the title looked up is
    a normalized line in upper case, which has neither two spaces in a row
    nor a space at its end. *)
Theorem unreachable_aliases raw m_sub :
  re_match SUBJECT_LINE_RE (normalize_line raw) = Some m_sub ->
  upper (group 1 m_sub) <> U "GENERAL  KNOWLEDGE AND FRENCH" /\
  upper (group 1 m_sub) <> U "GENERAL KNOWLEDGE & LANGUAGE ".
Proof.
  intros H. rewrite (subject_group_whole raw m_sub H).
  destruct (normalize_cases raw) as [E | Ht]; [rewrite E in H; discriminate H|].
  apply upper_tidy, normalize_tidy in Ht.
  split; intros E; rewrite E in Ht; vm_compute in Ht; discriminate Ht.
Qed.

Lemma unreachable_aliases_witness :
  upper (group 1 [(1%nat, U "biology")]) <> U "GENERAL  KNOWLEDGE AND FRENCH" /\
  upper (group 1 [(1%nat, U "biology")]) <> U "GENERAL KNOWLEDGE & LANGUAGE ".
Proof.
  apply (unreachable_aliases (U " biology ")). reflexivity.
Defined.

Lemma dict_get_In (V : Type) (d : dict V) k v :
  dict_get d k = Some v -> In v (map snd d).
Proof.
  induction d as [|[k' v'] d IH]; simpl; [discriminate|].
  destruct (pystr_eqb k k'); [intros [= ->]; now left | auto].
Qed.

Lemma resolve_subject_keys line key :
  resolve_subject line = Some key -> In key CANONICAL_KEYS.
Proof.
  unfold resolve_subject. destruct (re_match SUBJECT_LINE_RE line); [|discriminate].
  intros H. apply dict_get_In in H. simpl in H.
  repeat (destruct H as [<-|H]; [vm_compute; tauto|]). contradiction.
Qed.

(** X8.  Whatever header a line carries, the key it resolves to is one of the
    five keys [main] starts with. *)
Theorem resolve_subject_canonical line key :
  resolve_subject line = Some key -> In key CANONICAL_KEYS.
Proof. apply resolve_subject_keys. Qed.

Lemma resolve_subject_canonical_witness :
  In (U "general-knowledge") CANONICAL_KEYS.
Proof.
  apply (resolve_subject_canonical (U "General Knowledge & Language")).
  reflexivity.
Defined.

Lemma year_match_inv s m :
  re_match YEAR_HEADER_RE s = Some m -> year_shaped (group 1 m).
Proof.
  unfold re_match, YEAR_HEADER_RE, Cat. cbn [fold_right].
  match goal with |- context [Seq (Plus isspace) ?r] =>
    set (rest := Seq (Plus isspace) r) end.
  change (Lit ci "20") with (Seq (Cls (ci 50)) (Seq (Cls (ci 48)) Eps)).
  cbn [rmatch]. intros H.
  destruct s as [|c s]; [discriminate|].
  destruct (ci 50 c) eqn:E1; [|discriminate].
  destruct s as [|c2 s]; [discriminate|].
  destruct (ci 48 c2) eqn:E2; [|discriminate].
  apply (N.eqb_eq c 50) in E1. apply (N.eqb_eq c2 48) in E2. subst c c2.
  apply rep_greedy_inv in H. destruct H as (a & s' & -> & Ha & Hl & H).
  apply rmatch_no_groups in H; [|reflexivity]. destruct H as [s'' H].
  injection H as <-. cbn [group Nat.eqb].
  pose proof (firstn_length_diff (50 :: 48 :: a) s') as E. simpl app in E.
  change (year_shaped
            (firstn (length (50 :: 48 :: a ++ s') - length s')
               (50 :: 48 :: a ++ s'))).
  rewrite E.
  destruct a as [|d1 [|d2 [|d3 a]]]; simpl in Hl; try lia.
  simpl in Ha. apply andb_prop in Ha. destruct Ha as [H1 Ha].
  apply andb_prop in Ha. destruct Ha as [H2 _].
  exists d1, d2. auto.
Qed.

(** ** Sections *)

(** A step of the segmenter either keeps the blocks and the pending section,
    or closes the pending section at the line and opens one after it. *)
Lemma seg_step_cases st i raw :
  (opens_section raw = false /\
   seg_step st i raw =
   {| blocks := blocks st;
      current_year := year_in_force (current_year st) [raw];
      last_subject_idx := last_subject_idx st;
      last_subject_key := last_subject_key st |})
  \/
  (exists key,
      resolve_subject (normalize_line raw) = Some key /\
      opens_section raw = true /\
      year_in_force (current_year st) [raw] = current_year st /\
      seg_step st i raw =
      {| blocks := close_block st i;
         current_year := current_year st;
         last_subject_idx := Some (S i);
         last_subject_key := Some key |}).
Proof.
  unfold seg_step, opens_section, is_match. cbn [year_in_force].
  destruct (truthy (normalize_line raw)) eqn:Et; cbn [negb andb].
  - destruct (re_match YEAR_HEADER_RE (normalize_line raw)) as [m|] eqn:Ey.
    + left. now split.
    + destruct (resolve_subject (normalize_line raw)) as [key|] eqn:Er.
      * right. exists key. auto.
      * left. split; [reflexivity | now destruct st].
  - left. split; [reflexivity|].
    destruct (normalize_line raw); [|discriminate].
    change (re_match YEAR_HEADER_RE []) with (@None groups). now destruct st.
Qed.

Lemma seg_loop_prefix_inv (P : list pystr -> seg_state -> Prop) :
  (forall done st raw,
      P done st -> P (done ++ [raw]) (seg_step st (length done) raw)) ->
  forall todo done st,
    P done st -> P (done ++ todo) (seg_loop st (length done) todo).
Proof.
  intros Hstep. induction todo as [|raw todo IH]; intros done st H; simpl.
  - now rewrite app_nil_r.
  - replace (done ++ raw :: todo) with ((done ++ [raw]) ++ todo)
      by (rewrite <- app_assoc; reflexivity).
    replace (S (length done)) with (length (done ++ [raw]))
      by (rewrite length_app; simpl; lia).
    apply IH. now apply Hstep.
Qed.

Lemma seg_loop_from_start (P : list pystr -> seg_state -> Prop) lines :
  (forall done st raw,
      P done st -> P (done ++ [raw]) (seg_step st (length done) raw)) ->
  P [] seg_init -> P lines (seg_loop seg_init 0 lines).
Proof.
  intros Hstep H0. apply (seg_loop_prefix_inv P Hstep lines [] seg_init H0).
Qed.

Lemma year_in_force_app y a b :
  year_in_force y (a ++ b) = year_in_force (year_in_force y a) b.
Proof. revert y. induction a as [|x a IH]; intros y; simpl; auto. Qed.

Lemma last_cons_default (b0 b1 : block) bs :
  last (b1 :: bs) b0 = last bs b1.
Proof.
  revert b0 b1. induction bs as [|b2 bs IH]; intros b0 b1; [reflexivity|].
  change (last (b1 :: b2 :: bs) b0) with (last (b2 :: bs) b0).
  rewrite IH. symmetry. apply IH.
Qed.

Lemma chained_snoc b0 bs b :
  chained ((b0 :: bs) ++ [b]) <->
  chained (b0 :: bs) /\ S (block_stop (last bs b0)) = block_start b.
Proof.
  revert b0. induction bs as [|b1 bs IH]; intros b0.
  - simpl. tauto.
  - change (chained ((b0 :: b1 :: bs) ++ [b]))
      with (S (block_stop b0) = block_start b1 /\ chained ((b1 :: bs) ++ [b])).
    rewrite IH.
    change (chained (b0 :: b1 :: bs))
      with (S (block_stop b0) = block_start b1 /\ chained (b1 :: bs)).
    rewrite last_cons_default. tauto.
Qed.

Lemma last_snoc (b0 : block) bs b : last (bs ++ [b]) b0 = b.
Proof. apply last_last. Qed.

Lemma seg_wf_step done st raw :
  seg_wf (length done) st ->
  seg_wf (length (done ++ [raw])) (seg_step st (length done) raw).
Proof.
  rewrite length_app. simpl length. rewrite Nat.add_1_r.
  intros (Hb & Hc & Hp).
  assert (Hb' : Forall (fun b => (1 <= block_start b <= block_stop b)%nat
                                 /\ (block_stop b < S (length done))%nat)
                  (blocks st)).
  { eapply Forall_impl; [|exact Hb]. intros b. simpl. lia. }
  destruct (seg_step_cases st (length done) raw)
    as [[_ ->] | (key & _ & _ & _ & ->)]; unfold seg_wf; simpl.
  - repeat split; auto.
    destruct (last_subject_idx st), (last_subject_key st); auto.
    destruct Hp as [Hi Hl]. split; [lia | exact Hl].
  - unfold close_block.
    destruct (last_subject_idx st) as [idx|], (last_subject_key st) as [k|];
      try contradiction.
    + destruct Hp as [Hi Hl]. repeat split.
      * apply Forall_app. split; [exact Hb'|]. constructor; [simpl; lia | constructor].
      * destruct (blocks st) as [|b0 bs]; [exact I|].
        apply chained_snoc. split; [exact Hc | exact Hl].
      * lia.
      * lia.
      * destruct (blocks st) as [|b0 bs]; simpl; [reflexivity|].
        destruct (bs ++ [(year_or_empty (current_year st), k, idx, length done)])
          eqn:E; [now destruct bs|].
        rewrite <- E.
        change (last (bs ++ [(year_or_empty (current_year st), k, idx, length done)]) b0)
          with (last (bs ++ [(year_or_empty (current_year st), k, idx, length done)]) b0).
        rewrite last_last. reflexivity.
    + rewrite Hp. repeat split; auto; lia.
Qed.

Lemma seg_wf_final lines : seg_wf (length lines) (seg_loop seg_init 0 lines).
Proof.
  apply (seg_loop_from_start (fun done st => seg_wf (length done) st)).
  - apply seg_wf_step.
  - unfold seg_wf. simpl. auto.
Qed.

(** X9.  The blocks lie in the document, in order and without overlap: each
    starts after a header line and ends at the next header that opens a
    section, where the next block's header is, and the last one ends with
    the document.  A block may be empty. *)
Theorem blocks_well_formed lines :
  Forall (fun b => (1 <= block_start b <= block_stop b)%nat
                   /\ (block_stop b <= length lines)%nat)
    (parse_subject_blocks lines)
  /\ chained (parse_subject_blocks lines)
  /\ match parse_subject_blocks lines with
     | [] => True
     | b :: bs => block_stop (last bs b) = length lines
     end.
Proof.
  unfold parse_subject_blocks.
  destruct (seg_wf_final lines) as (Hb & Hc & Hp).
  set (st := seg_loop seg_init 0 lines) in *.
  assert (Hb' : Forall (fun b => (1 <= block_start b <= block_stop b)%nat
                                 /\ (block_stop b <= length lines)%nat)
                  (blocks st)).
  { eapply Forall_impl; [|exact Hb]. intros b. simpl. lia. }
  unfold close_block.
  destruct (last_subject_idx st) as [idx|], (last_subject_key st) as [k|];
    try contradiction.
  - destruct Hp as [Hi Hl]. repeat split.
    + apply Forall_app. split; [exact Hb'|]. constructor; [simpl; lia | constructor].
    + destruct (blocks st) as [|b0 bs]; [exact I|].
      apply chained_snoc. split; [exact Hc | exact Hl].
    + destruct (blocks st) as [|b0 bs]; simpl; [reflexivity|].
      destruct (bs ++ [(year_or_empty (current_year st), k, idx, length lines)])
        eqn:E; [now destruct bs|].
      rewrite <- E, last_last. reflexivity.
  - rewrite Hp. simpl. auto.
Qed.

(** X10.  There is one block for each line that opens a section, and none when no
    line does (an empty document, or one without a resolved subject
    header). *)
Theorem blocks_count lines :
  length (parse_subject_blocks lines) = length (filter opens_section lines).
Proof.
  unfold parse_subject_blocks.
  assert (H : (fun done st =>
                 match last_subject_idx st, last_subject_key st with
                 | Some _, Some _ =>
                     S (length (blocks st)) = length (filter opens_section done)
                 | None, None =>
                     length (blocks st) = length (filter opens_section done)
                 | _, _ => False
                 end) lines (seg_loop seg_init 0 lines)).
  { apply seg_loop_from_start; [|reflexivity].
    intros done st raw Hinv. rewrite filter_app, length_app. simpl filter.
    destruct (seg_step_cases st (length done) raw)
      as [[Eo ->] | (key & _ & Eo & _ & ->)]; rewrite Eo; simpl.
    - destruct (last_subject_idx st), (last_subject_key st); simpl; lia.
    - unfold close_block.
      destruct (last_subject_idx st), (last_subject_key st); try contradiction.
      + rewrite length_app. simpl. lia.
      + lia. }
  cbv beta in H. unfold close_block.
  destruct (last_subject_idx _), (last_subject_key _); try contradiction.
  - rewrite length_app. simpl. lia.
  - exact H.
Qed.

(** X11.  A block carries the year in force where it ends, not where it starts:
    the year of the last year header above the line that closes it. *)
Theorem block_year_at_close lines :
  Forall (fun b =>
            block_year b =
            year_or_empty (year_in_force None (firstn (block_stop b) lines)))
    (parse_subject_blocks lines).
Proof.
  unfold parse_subject_blocks.
  assert (H : (fun done st =>
                 current_year st = year_in_force None done /\
                 Forall (fun b =>
                           (block_stop b <= length done)%nat /\
                           block_year b =
                           year_or_empty
                             (year_in_force None (firstn (block_stop b) done)))
                   (blocks st)) lines (seg_loop seg_init 0 lines)).
  { apply seg_loop_from_start; [|split; [reflexivity | constructor]].
    intros done st raw [Hy Hb].
    assert (Hb' : Forall (fun b =>
                            (block_stop b <= length (done ++ [raw]))%nat /\
                            block_year b =
                            year_or_empty
                              (year_in_force None
                                 (firstn (block_stop b) (done ++ [raw]))))
                    (blocks st)).
    { eapply Forall_impl; [|exact Hb]. intros b [Hl E].
      rewrite length_app, firstn_app.
      replace (block_stop b - length done)%nat with 0%nat by lia.
      simpl firstn. rewrite app_nil_r. split; [lia | exact E]. }
    destruct (seg_step_cases st (length done) raw)
      as [[_ ->] | (key & _ & _ & Ey & ->)]; simpl.
    - split; [|exact Hb']. now rewrite year_in_force_app, Hy.
    - split; [now rewrite year_in_force_app, <- Hy, Ey|].
      unfold close_block.
      destruct (last_subject_idx st), (last_subject_key st); try exact Hb'.
      apply Forall_app. split; [exact Hb'|]. constructor; [|constructor].
      simpl. rewrite length_app, firstn_app, firstn_all, Nat.sub_diag.
      simpl. rewrite app_nil_r, Hy. split; [lia | reflexivity]. }
  cbv beta in H. destruct H as [Hy Hb].
  assert (Hb' : Forall (fun b =>
                          block_year b =
                          year_or_empty
                            (year_in_force None (firstn (block_stop b) lines)))
                  (blocks (seg_loop seg_init 0 lines))).
  { eapply Forall_impl; [|exact Hb]. now intros b [_ E]. }
  unfold close_block. set (st := seg_loop seg_init 0 lines) in *.
  destruct (last_subject_idx st), (last_subject_key st); try exact Hb'.
  apply Forall_app. split; [exact Hb'|]. constructor; [|constructor].
  simpl. now rewrite firstn_all, Hy.
Qed.

Lemma blocks_key_year lines :
  Forall (fun b =>
            In (block_key b) CANONICAL_KEYS /\
            (block_year b = [] \/ year_shaped (block_year b)))
    (parse_subject_blocks lines).
Proof.
  unfold parse_subject_blocks.
  assert (H : (fun (done : list pystr) st =>
                 match current_year st with
                 | Some y => year_shaped y
                 | None => True
                 end /\
                 match last_subject_key st with
                 | Some key => In key CANONICAL_KEYS
                 | None => True
                 end /\
                 Forall (fun b =>
                           In (block_key b) CANONICAL_KEYS /\
                           (block_year b = [] \/ year_shaped (block_year b)))
                   (blocks st)) lines (seg_loop seg_init 0 lines)).
  { apply seg_loop_from_start; [|simpl; auto].
    intros done st raw (Hy & Hk & Hb).
    assert (Hc : forall i,
               Forall (fun b =>
                         In (block_key b) CANONICAL_KEYS /\
                         (block_year b = [] \/ year_shaped (block_year b)))
                 (close_block st i)).
    { intros i. unfold close_block.
      destruct (last_subject_idx st), (last_subject_key st); try exact Hb.
      apply Forall_app. split; [exact Hb|]. constructor; [|constructor].
      simpl. split; [exact Hk|].
      destruct (current_year st); simpl; auto. }
    destruct (seg_step_cases st (length done) raw)
      as [[_ ->] | (key & Er & _ & _ & ->)]; simpl.
    - repeat split; auto.
      destruct (re_match YEAR_HEADER_RE (normalize_line raw)) eqn:E; [|exact Hy].
      now apply year_match_inv in E.
    - repeat split; auto. now apply resolve_subject_keys in Er. }
  cbv beta in H. destruct H as (Hy & Hk & Hb).
  unfold close_block. set (st := seg_loop seg_init 0 lines) in *.
  destruct (last_subject_idx st), (last_subject_key st); try exact Hb.
  apply Forall_app. split; [exact Hb|]. constructor; [|constructor].
  simpl. split; [exact Hk|].
  destruct (current_year st); simpl; auto.
Qed.

(** X12.  The key of every block is one of the five keys [main] starts with, and
    its year is empty (no year header above its end) or [20] followed by two
    decimal digits. *)
Theorem block_key_and_year lines :
  Forall (fun b =>
            In (block_key b) CANONICAL_KEYS /\
            (block_year b = [] \/ year_shaped (block_year b)))
    (parse_subject_blocks lines).
Proof. apply blocks_key_year. Qed.

(** A section opened under one year and closed under the next is filed under
    the later year. *)
Example year_of_the_closing_header :
  parse_subject_blocks
    [ U "2021 NATIONAL QUALIFYING EXAM"; U "BIOLOGY"; U "1) First";
      U "2022 NATIONAL QUALIFYING EXAM"; U "BIOLOGY"; U "1) Second" ] =
  [ (U "2022", U "biology", 2%nat, 4%nat);
    (U "2022", U "biology", 5%nat, 6%nat) ].
Proof. reflexivity. Qed.

(** ** Records *)

Lemma emitted_record_facts lines y q :
  In q (parse_questions_from_block lines y) ->
  question q <> [] /\
  normalize_line (question q) = question q /\
  (length (options q) <= 5)%nat /\
  answer q = None /\
  year q = year_or_none y.
Proof.
  intros Hq. pose proof (emitted_options _ _ _ Hq) as [i1 Eo].
  apply emitted_provenance in Hq.
  destruct Hq as (i & m_q & Hi & E & Hne & ->). simpl in *.
  split; [exact Hne|]. split; [|split; [|auto]].
  - destruct (read_question_text lines i m_q) as [parts ->].
    now rewrite strip_normalize, normalize_idem.
  - rewrite Eo, length_map, (Permutation_length (sorted_perm _)).
    change 5%nat with (length LETTERS).
    apply NoDup_incl_length; apply gathered_keys.
Qed.

(** X13.  A block without a line that begins with a digit, an empty block among
    them, yields no record. *)
Theorem no_question_start_no_record lines default_year :
  Forall (fun raw => is_match QUESTION_START_RE (normalize_line raw) = false)
    lines ->
  parse_questions_from_block lines default_year = [].
Proof.
  intros H. destruct (parse_questions_from_block lines default_year)
    as [|q qs] eqn:E; [reflexivity|]. exfalso.
  assert (Hq : In q (parse_questions_from_block lines default_year))
    by (rewrite E; now left).
  apply emitted_provenance in Hq. destruct Hq as (i & m_q & Hi & Em & _).
  rewrite Forall_forall in H.
  specialize (H (nth i lines []) (nth_In lines [] Hi)).
  apply is_match_false in H. unfold line_at in Em. congruence.
Qed.

Lemma no_question_start_no_record_witness :
  parse_questions_from_block [U "BIOLOGY"; U "A) stray option"; U ""] (U "2022")
  = [].
Proof.
  apply (no_question_start_no_record
           [U "BIOLOGY"; U "A) stray option"; U ""] (U "2022")).
  repeat constructor.
Defined.

(** X14.  Every record leaves the extractor with its answer unset and with the
    year of its section, unset when the section has no year. *)
Theorem emitted_answer_and_year lines default_year q :
  In q (parse_questions_from_block lines default_year) ->
  answer q = None /\
  year q = (if truthy default_year then Some default_year else None).
Proof. intros Hq. now apply emitted_record_facts in Hq. Qed.

Lemma emitted_answer_and_year_witness :
  answer shuffled_question = None /\
  year shuffled_question = (if truthy (@nil N) then Some [] else None).
Proof.
  apply (emitted_answer_and_year shuffled_block [] shuffled_question).
  vm_compute. auto.
Defined.

Lemma read_option_text_ok lines i m :
  re_match OPTION_RE (line_at lines i) = Some m ->
  snd (fst (read_option lines i m)) = [] \/
  tidy (snd (fst (read_option lines i m))).
Proof.
  intros H. unfold read_option.
  destruct (coalesce _ _ _ _) as [cp j]. simpl.
  destruct (truthy cp); [apply normalize_cases|].
  exact (option_text_tidy _ _ H).
Qed.

Lemma dict_set_values (P : pystr -> Prop) (d : dict pystr) k v :
  Forall P (map snd d) -> P v -> Forall P (map snd (dict_set d k v)).
Proof.
  intros Hd Hv. induction d as [|[k' v'] d IH]; simpl.
  - now constructor.
  - inversion Hd; subst. destruct (pystr_eqb k k'); simpl; constructor; auto.
Qed.

Lemma gather_options_values fuel lines i opts :
  Forall (fun v => v = [] \/ tidy v) (map snd opts) ->
  Forall (fun v => v = [] \/ tidy v)
    (map snd (fst (gather_options fuel lines i opts))).
Proof.
  revert i opts. induction fuel as [|fuel IH]; intros i opts H; simpl; [exact H|].
  destruct (i <? length lines)%nat; [|exact H].
  destruct (re_match OPTION_RE _) as [m|] eqn:E.
  - pose proof (read_option_text_ok lines i m E) as Ht.
    destruct (read_option lines i m) as [[letter text] j]. simpl in Ht.
    apply IH. now apply dict_set_values.
  - destruct (is_match _ _); [exact H | now apply IH].
Qed.

(** X15.  The option texts of a record are in normalized form: no white space at
    either end, single spaces inside.  An option line without text gives the
    empty string. *)
Theorem emitted_options_normalized lines default_year q :
  In q (parse_questions_from_block lines default_year) ->
  Forall (fun o => normalize_line o = o) (options q).
Proof.
  intros Hq. destruct (emitted_options _ _ _ Hq) as [i ->].
  pose proof (gather_options_values (length lines) lines i []
                (Forall_nil _)) as Hv.
  apply Forall_map, Forall_forall. intros k _. unfold dict_item.
  destruct (dict_get _ k) as [v|] eqn:G; [|reflexivity].
  apply dict_get_In in G. rewrite Forall_forall in Hv.
  destruct (Hv v G) as [-> | Ht]; [reflexivity | now apply normalize_tidy].
Qed.

Lemma emitted_options_normalized_witness :
  Forall (fun o => normalize_line o = o) (options shuffled_question).
Proof.
  apply (emitted_options_normalized shuffled_block [] shuffled_question).
  vm_compute. auto.
Defined.

Lemma skipn_nth (l : list pystr) i :
  (i < length l)%nat -> skipn i l = nth i l [] :: skipn (S i) l.
Proof.
  revert i. induction l as [|x l IH]; intros [|i] H; simpl in *; try lia.
  - reflexivity.
  - apply IH. lia.
Qed.

Lemma filter_skipn_mono (f : pystr -> bool) l :
  forall i j,
    (i <= j)%nat ->
    (length (filter f (skipn j l)) <= length (filter f (skipn i l)))%nat.
Proof.
  induction l as [|x l IH]; intros [|i] [|j] H; simpl; try lia.
  - specialize (IH 0%nat j (Nat.le_0_l j)). simpl in IH.
    destruct (f x); simpl; lia.
  - apply IH. lia.
Qed.

Lemma questions_loop_bound fuel lines y :
  forall i qs,
    (length (questions_loop fuel lines y i qs) <=
     length qs +
     length (filter (fun raw => is_match QUESTION_START_RE (normalize_line raw))
               (skipn i lines)))%nat.
Proof.
  induction fuel as [|fuel IH]; intros i qs; simpl; [lia|].
  destruct (Nat.ltb_spec i (length lines)) as [Hi|Hi]; [|lia].
  pose proof (filter_skipn_mono
                (fun raw => is_match QUESTION_START_RE (normalize_line raw))
                lines (S i)) as Hmono.
  rewrite (skipn_nth lines i Hi). cbn [filter]. fold (line_at lines i).
  destruct (negb (truthy (line_at lines i))).
  - specialize (IH (S i) qs).
    destruct (is_match _ _); cbn [length]; lia.
  - unfold is_match at 1.
    destruct (re_match QUESTION_START_RE (line_at lines i)) as [m_q|].
    + pose proof (read_question_gt lines i m_q) as Hgt.
      destruct (read_question lines i m_q) as [[text opts] i']. simpl in Hgt.
      specialize (Hmono i' Hgt). cbn [length].
      destruct (negb (truthy text)).
      * specialize (IH i' qs). lia.
      * specialize (IH i' (qs ++ [ {| question := text;
                                      options := order_options opts;
                                      answer := None;
                                      year := year_or_none y |} ])).
        rewrite length_app in IH. cbn [length] in IH. lia.
    + specialize (IH (S i) qs). lia.
Qed.

(** X16.  There is at most one record for each line of the block that begins with
    a digit. *)
Theorem records_bounded_by_question_starts lines default_year :
  (length (parse_questions_from_block lines default_year) <=
   length (filter (fun raw => is_match QUESTION_START_RE (normalize_line raw))
             lines))%nat.
Proof.
  unfold parse_questions_from_block.
  apply (questions_loop_bound (length lines) lines default_year 0 []).
Qed.

(** ** Banks *)

Lemma existsb_eqb_false t seen : existsb (pystr_eqb t) seen = false <-> ~ In t seen.
Proof.
  rewrite <- existsb_eqb_true. destruct (existsb _ seen); split; congruence.
Qed.

Lemma dedup_loop_spec items :
  forall seen,
    NoDup (map question (dedup_loop items seen [])) /\
    forall q, In q (dedup_loop items seen []) ->
              In q items /\ ~ In (question q) seen.
Proof.
  induction items as [|it items IH]; intros seen; simpl.
  - split; [constructor | intros q []].
  - destruct (existsb (pystr_eqb (question it)) seen) eqn:Es.
    + destruct (IH seen) as [Hn Hin]. split; [exact Hn|].
      intros q Hq. destruct (Hin q Hq). auto.
    + rewrite dedup_loop_acc. destruct (IH (question it :: seen)) as [Hn Hin].
      apply existsb_eqb_false in Es. split.
      * simpl. constructor; [|exact Hn]. rewrite in_map_iff.
        intros (q & E & Hq). destruct (Hin q Hq) as [_ Hns].
        apply Hns. left. congruence.
      * intros q [<-|Hq]; [auto|].
        destruct (Hin q Hq) as [H1 H2]. split; [auto|].
        intros H. apply H2. now right.
Qed.

Lemma dedup_loop_unique items :
  forall seen,
    NoDup (map question items) ->
    (forall q, In q items -> ~ In (question q) seen) ->
    dedup_loop items seen [] = items.
Proof.
  induction items as [|it items IH]; intros seen Hn Hs; simpl; [reflexivity|].
  inversion Hn as [|? ? Hnot Hn']; subst.
  assert (Es : existsb (pystr_eqb (question it)) seen = false)
    by (apply existsb_eqb_false, Hs; now left).
  rewrite Es, dedup_loop_acc. simpl. f_equal.
  apply IH; [exact Hn'|]. intros q Hq [E|H].
  - apply Hnot. rewrite E. now apply in_map.
  - apply (Hs q); [now right | exact H].
Qed.

(** X18.  The output of the deduplication has each question text once, holds only
    records of its input, and loses no question text. *)
Theorem dedup_texts_unique items :
  NoDup (map question (dedup items)) /\
  (forall q, In q (dedup items) -> In q items) /\
  (forall t, In t (map question items) -> In t (map question (dedup items))).
Proof.
  unfold dedup. destruct (dedup_loop_spec items []) as [Hn Hin].
  split; [exact Hn|]. split; [intros q Hq; now apply Hin|].
  intros t Ht. apply in_map_iff in Ht. destruct Ht as (q & E & Hq).
  pose proof (with_text_dedup_loop t items []) as W. simpl in W.
  assert (Hw : In q (with_text t items)).
  { apply filter_In. split; [exact Hq | now apply pystr_eqb_eq]. }
  destruct (with_text t items) as [|q0 w]; [contradiction|]. simpl in W.
  assert (H0 : In q0 (with_text t (dedup_loop items [] [])))
    by (rewrite W; now left).
  apply filter_In in H0. destruct H0 as [H0 E0]. apply pystr_eqb_eq in E0.
  apply in_map_iff. now exists q0.
Qed.

(** X19.  A bank whose question texts are all different passes the deduplication
    unchanged, in the same order. *)
Theorem dedup_unique_identity items :
  NoDup (map question items) -> dedup items = items.
Proof. intros H. apply dedup_loop_unique; [exact H | auto]. Qed.

Lemma dedup_unique_identity_witness :
  dedup [powerhouse; shuffled_question] = [powerhouse; shuffled_question].
Proof.
  apply (dedup_unique_identity [powerhouse; shuffled_question]).
  repeat constructor; simpl; intros H;
    repeat (destruct H as [H|H]; [discriminate H|]); exact H.
Defined.

(** X20.  Deduplicating twice is deduplicating once. *)
Theorem dedup_idempotent items : dedup (dedup items) = dedup items.
Proof.
  unfold dedup at 1. apply dedup_loop_unique; [|auto].
  apply (dedup_loop_spec items []).
Qed.

Lemma bank_of_init key : bank_of per_subject_init key = [].
Proof.
  unfold bank_of, per_subject_init. simpl.
  repeat (destruct (pystr_eqb key _); [reflexivity|]). reflexivity.
Qed.

Lemma collect_step_bank raw_lines per_subject b key :
  bank_of (collect_step raw_lines per_subject b) key =
  bank_of per_subject key ++ questions_of raw_lines key [b].
Proof.
  destruct b as [[[y k] start] stop]. unfold questions_of. simpl flat_map.
  rewrite app_nil_r. destruct (pystr_eqb k key) eqn:E.
  - apply pystr_eqb_eq in E. subst key. apply collect_step_appends.
  - rewrite app_nil_r. apply pystr_eqb_neq in E.
    unfold collect_step, bank_of at 1.
    rewrite dict_get_set_other by congruence.
    unfold dict_setdefault, bank_of.
    destruct (dict_get per_subject k); [reflexivity|].
    rewrite dict_get_set_other by congruence. reflexivity.
Qed.

Lemma collect_fold_bank raw_lines key bs :
  forall per_subject,
    bank_of (fold_left (collect_step raw_lines) bs per_subject) key =
    bank_of per_subject key ++ questions_of raw_lines key bs.
Proof.
  induction bs as [|b bs IH]; intros per_subject; simpl fold_left.
  - unfold questions_of. simpl. now rewrite app_nil_r.
  - rewrite IH, collect_step_bank, <- app_assoc. f_equal.
    unfold questions_of. simpl flat_map. now rewrite app_nil_r.
Qed.

Lemma collect_bank raw_lines key :
  bank_of (collect raw_lines) key =
  questions_of raw_lines key (parse_subject_blocks raw_lines).
Proof. unfold collect. now rewrite collect_fold_bank, bank_of_init. Qed.

(** X21.  The bank of a subject holds the questions of the sections of that
    subject, section after section in the order of the document. *)
Theorem collect_bank_concat raw_lines key :
  bank_of (collect raw_lines) key =
  questions_of raw_lines key (parse_subject_blocks raw_lines).
Proof. apply collect_bank. Qed.

Lemma collect_step_keys raw_lines per_subject b :
  In (block_key b) (dict_keys per_subject) ->
  dict_keys (collect_step raw_lines per_subject b) = dict_keys per_subject.
Proof.
  destruct b as [[[y k] start] stop]. simpl. intros Hk.
  unfold collect_step, dict_setdefault.
  pose proof (proj2 (dict_get_keys _ per_subject k) Hk) as Hg.
  destruct (dict_get per_subject k); [|congruence].
  now apply dict_keys_set_old.
Qed.

Lemma collect_keys_fixed raw_lines :
  dict_keys (collect raw_lines) = CANONICAL_KEYS.
Proof.
  unfold collect. pose proof (blocks_key_year raw_lines) as H.
  assert (G : forall bs per_subject,
             Forall (fun b => In (block_key b) CANONICAL_KEYS) bs ->
             dict_keys per_subject = CANONICAL_KEYS ->
             dict_keys (fold_left (collect_step raw_lines) bs per_subject)
             = CANONICAL_KEYS).
  { induction bs as [|b bs IH]; intros per_subject Hb Hk; simpl; [exact Hk|].
    inversion Hb; subst. apply IH; [assumption|].
    rewrite collect_step_keys; [exact Hk | now rewrite Hk]. }
  apply G; [|reflexivity].
  eapply Forall_impl; [|exact H]. now intros b [Hb _].
Qed.

(** X22.  Whatever the document, [per_subject] ends with the five keys it started
    with, in the same order: no header adds a subject. *)
Theorem collect_keys raw_lines :
  dict_keys (collect raw_lines) = CANONICAL_KEYS.
Proof. apply collect_keys_fixed. Qed.

(** X23.  Every record of a bank, as written, has a non-empty normalized question
    text, at most five options and no answer. *)
Theorem bank_records raw_lines key q :
  In q (dedup (bank_of (collect raw_lines) key)) ->
  question q <> [] /\
  normalize_line (question q) = question q /\
  (length (options q) <= 5)%nat /\
  answer q = None.
Proof.
  intros Hq. apply (dedup_loop_spec _ []) in Hq. destruct Hq as [Hq _].
  rewrite collect_bank in Hq. unfold questions_of in Hq.
  apply in_flat_map in Hq. destruct Hq as ([[[y k] start] stop] & _ & Hq).
  destruct (pystr_eqb k key); [|contradiction].
  apply emitted_record_facts in Hq. tauto.
Qed.

Lemma bank_records_witness :
  question powerhouse <> [] /\
  normalize_line (question powerhouse) = question powerhouse /\
  (length (options powerhouse) <= 5)%nat /\
  answer powerhouse = None.
Proof.
  apply (bank_records scenario1 (U "biology") powerhouse).
  vm_compute. auto.
Defined.

(** ** Files *)

Lemma write_banks_paths env out_dir per_subject :
  exists rest,
    map (out_path_of out_dir) (dict_keys per_subject) =
    written_paths (fst (write_banks env out_dir per_subject)) ++ rest /\
    (snd (write_banks env out_dir per_subject) = Returned -> rest = []).
Proof.
  induction per_subject as [|[key items] per IH]; simpl.
  - exists []. auto.
  - destruct (os_write env _ _).
    + destruct (os_print env _).
      * destruct IH as (rest & E & Hr).
        destruct (write_banks env out_dir per) as [evs c]. simpl in *.
        exists rest. split; [now rewrite E | exact Hr].
      * simpl. eexists. split; [reflexivity | discriminate].
    + simpl. eexists. split; [reflexivity | discriminate].
Qed.

(** X24.  A run that goes through writes the five files, one for each key and in
    the order of the keys, whatever the document holds. *)
Theorem main_success_files env txt_path out_dir :
  snd (main env txt_path out_dir) = Returned ->
  written_paths (fst (main env txt_path out_dir)) =
  map (out_path_of out_dir) CANONICAL_KEYS.
Proof.
  unfold main. destruct (os_read env txt_path) as [text|]; [|discriminate].
  destruct (os_makedirs env out_dir); [|discriminate].
  intros H.
  destruct (write_banks_paths env out_dir (collect (splitlines text)))
    as (rest & E & Hr).
  rewrite collect_keys_fixed in E. rewrite E, (Hr H). now rewrite app_nil_r.
Qed.

Lemma main_success_files_witness :
  written_paths
    (fst (main (os_fine (join [10] scenario1)) (U "exams.txt") (U "out"))) =
  map (out_path_of (U "out")) CANONICAL_KEYS.
Proof.
  apply (main_success_files (os_fine (join [10] scenario1))
           (U "exams.txt") (U "out")).
  reflexivity.
Defined.

(** X25.  Whatever fails, the files written are the first ones of the five in the
    order of the keys: no other path is written, none is written twice, and
    a failure to read the input or to make the directory leaves none. *)
Theorem main_writes_prefix env txt_path out_dir :
  exists rest,
    map (out_path_of out_dir) CANONICAL_KEYS =
    written_paths (fst (main env txt_path out_dir)) ++ rest
  /\ (os_read env txt_path = None \/ os_makedirs env out_dir = false ->
      fst (main env txt_path out_dir) = []).
Proof.
  unfold main. destruct (os_read env txt_path) as [text|].
  - destruct (os_makedirs env out_dir).
    + destruct (write_banks_paths env out_dir (collect (splitlines text)))
        as (rest & E & _).
      rewrite collect_keys_fixed in E. exists rest. split; [exact E|].
      intros [H|H]; discriminate H.
    + eexists. split; reflexivity.
  - eexists. split; reflexivity.
Qed.

Lemma main_writes_prefix_witness :
  fst (main os_empty (U "exams.txt") (U "out")) = [].
Proof.
  destruct (main_writes_prefix os_empty (U "exams.txt") (U "out"))
    as (rest & _ & H).
  apply H. left. reflexivity.
Defined.

(** A write that fails at the third file leaves the first two. *)
Example third_write_fails :
  written_paths
    (fst (main (os_failing_write (join [10] scenario1)
                  (U "out/physics-full.json"))
            (U "exams.txt") (U "out")))
  = [U "out/biology-full.json"; U "out/chemistry-full.json"].
Proof. reflexivity. Qed.

Lemma dict_get_of_In (V : Type) (d : dict V) k v :
  NoDup (dict_keys d) -> In (k, v) d -> dict_get d k = Some v.
Proof.
  induction d as [|[k' v'] d IH]; simpl; [tauto|].
  intros Hn [E|Hin].
  - injection E as -> ->. now rewrite pystr_eqb_refl.
  - inversion Hn as [|? ? Hnot Hn']; subst.
    destruct (pystr_eqb k k') eqn:Ek; [|auto].
    apply pystr_eqb_eq in Ek. subst k'. exfalso. apply Hnot.
    change k with (fst (k, v)). now apply in_map.
Qed.

Lemma write_banks_contents env out_dir per_subject path content :
  In (Wrote path content) (fst (write_banks env out_dir per_subject)) ->
  exists key items,
    In (key, items) per_subject /\
    path = out_path_of out_dir key /\
    content = json_dump (dedup items).
Proof.
  induction per_subject as [|[key items] per IH]; simpl; [tauto|].
  rewrite dedup_in_eq.
  destruct (os_write env _ _); [|simpl; tauto].
  destruct (os_print env _).
  - destruct (write_banks env out_dir per) as [evs c]. simpl in *.
    intros [E|[E|Hin]]; try discriminate E.
    + injection E as <- <-. exists key, items. auto.
    + destruct (IH Hin) as (k & its & H1 & H2 & H3). exists k, its. auto.
  - simpl. intros [E|[]]. injection E as <- <-. exists key, items. auto.
Qed.

(** X26.  Every file a run writes is the file of one of the five keys and holds
    the serialized bank of that key: the questions of the key's sections in
    document order, without repeated question texts. *)
Theorem main_file_contents env txt_path out_dir text path content :
  os_read env txt_path = Some text ->
  In (Wrote path content) (fst (main env txt_path out_dir)) ->
  exists key,
    In key CANONICAL_KEYS /\
    path = out_path_of out_dir key /\
    content =
    json_dump
      (dedup (questions_of (splitlines text) key
                (parse_subject_blocks (splitlines text)))).
Proof.
  unfold main. intros ->. destruct (os_makedirs env out_dir); [|simpl; tauto].
  intros H. apply write_banks_contents in H.
  destruct H as (key & items & Hin & -> & ->).
  pose proof (collect_keys_fixed (splitlines text)) as Hk.
  assert (Hn : NoDup (dict_keys (collect (splitlines text)))).
  { rewrite Hk. repeat constructor; simpl; intros H;
      repeat (destruct H as [H|H]; [discriminate H|]); exact H. }
  pose proof (dict_get_of_In _ _ _ _ Hn Hin) as Hg.
  exists key. split; [|split; [reflexivity|]].
  - rewrite <- Hk. change key with (fst (key, items)). now apply in_map.
  - rewrite <- collect_bank. unfold bank_of. now rewrite Hg.
Qed.

Lemma main_file_contents_witness :
  exists key,
    In key CANONICAL_KEYS /\
    U "out/biology-full.json" = out_path_of (U "out") key /\
    json_dump [powerhouse] =
    json_dump
      (dedup (questions_of (splitlines (join [10] scenario1)) key
                (parse_subject_blocks (splitlines (join [10] scenario1))))).
Proof.
  apply (main_file_contents (os_fine (join [10] scenario1))
           (U "exams.txt") (U "out") (join [10] scenario1)).
  - reflexivity.
  - vm_compute. auto.
Defined.

(** ** Wrapped question text *)

Lemma group_in n (m : groups) : group n m = [] \/ In (n, group n m) m.
Proof.
  induction m as [|[n' t] m IH]; simpl; [now left|].
  destruct (Nat.eqb_spec n n') as [->|Hn]; [right; now left|].
  destruct IH; auto.
Qed.

(** A group of a match on a normalized line, stripped, is empty or tidy. *)
Lemma group_text_tidy r raw m n :
  re_match r (normalize_line raw) = Some m ->
  strip (group n m) = [] \/ tidy (strip (group n m)).
Proof.
  intros H. destruct (group_in n m) as [E0 | Hin]; [rewrite E0; now left|].
  unfold re_match in H. apply rmatch_inv in H.
  destruct H as (u & s' & new & E & H & F). injection H as Em.
  rewrite app_nil_r in Em. subst m. rewrite Forall_forall in F.
  destruct (F _ Hin) as (a & b & Eu). simpl in Eu.
  apply strip_spaced.
  destruct (normalize_cases raw) as [E0 | Ht].
  - rewrite E0 in E. symmetry in E. apply app_eq_nil in E.
    destruct E as [-> _]. symmetry in Eu. apply app_eq_nil in Eu.
    destruct Eu as [_ Eu]. apply app_eq_nil in Eu. destruct Eu as [-> _].
    exact I.
  - apply tidy_spaced in Ht. rewrite E, Eu in Ht.
    now apply spaced_app_l, spaced_app_r, spaced_app_l in Ht.
Qed.

Lemma accumulate_step fuel before raw rest parts :
  accumulate_text (S fuel) (before ++ raw :: rest) (length before) parts =
  if is_match OPTION_RE (normalize_line raw) then (parts, length before)
  else if is_match QUESTION_START_RE (normalize_line raw)
       then (parts, length before)
       else accumulate_text fuel (before ++ raw :: rest) (S (length before))
              (if truthy (normalize_line raw)
               then parts ++ [normalize_line raw] else parts).
Proof. cbn [accumulate_text]. now rewrite length_middle_lt, line_at_middle. Qed.

Lemma accumulate_run todo :
  forall before parts fuel rest,
    Forall (fun raw => starts_item raw = false) todo ->
    match rest with [] => True | r :: _ => starts_item r = true end ->
    (length todo < fuel)%nat ->
    accumulate_text fuel (before ++ todo ++ rest) (length before) parts =
    (parts ++ filter truthy (map normalize_line todo),
     (length before + length todo)%nat).
Proof.
  induction todo as [|c todo IH]; intros before parts [|fuel] rest Hc Hr Hf;
    try (simpl in Hf; lia).
  - simpl app. rewrite app_nil_r, Nat.add_0_r. destruct rest as [|r rest].
    + simpl. rewrite app_nil_r, Nat.ltb_irrefl. reflexivity.
    + rewrite accumulate_step. unfold starts_item in Hr.
      destruct (is_match OPTION_RE (normalize_line r)); [reflexivity|].
      simpl in Hr. now rewrite Hr.
  - inversion Hc as [|? ? Hc1 Hc2]; subst.
    change ((c :: todo) ++ rest) with (c :: todo ++ rest).
    rewrite accumulate_step. unfold starts_item in Hc1.
    apply orb_false_elim in Hc1. destruct Hc1 as [-> ->].
    assert (E : before ++ c :: todo ++ rest = (before ++ [c]) ++ todo ++ rest)
      by (rewrite <- app_assoc; reflexivity).
    assert (El : S (length before) = length (before ++ [c]))
      by (rewrite length_app; simpl; lia).
    simpl map. simpl filter. rewrite E, El.
    destruct (truthy (normalize_line c));
      rewrite IH; auto; try (simpl in Hf; lia);
      rewrite length_app; simpl length; rewrite <- ?app_assoc;
      f_equal; lia.
Qed.

Lemma joined_question_text (t0 : pystr) (kept : list pystr) :
  (t0 = [] \/ tidy t0) -> Forall tidy kept ->
  strip (normalize_line (join (U " ") (t0 :: kept))) =
  join (U " ") (filter truthy [t0] ++ kept).
Proof.
  intros Ht Hk. destruct Ht as [-> | Ht].
  - simpl filter. simpl app. destruct kept as [|p kept]; [reflexivity|].
    rewrite join_cons.
    change ([] ++ U " " ++ join (U " ") (p :: kept))
      with (SP :: join (U " ") (p :: kept)).
    pose proof (join_tidy p kept Hk) as HJ.
    rewrite (normalize_sp_tidy _ HJ). now apply strip_tidy.
  - assert (E : filter truthy [t0] = [t0])
      by (destruct t0; [now apply tidy_nonempty in Ht | reflexivity]).
    rewrite E. simpl app.
    pose proof (join_tidy t0 kept (Forall_cons _ Ht Hk)) as HJ.
    rewrite (normalize_tidy _ HJ). now apply strip_tidy.
Qed.

(** X17.  A question line followed by lines that start neither an option nor a
    question, up to the next line that does or to the end of the block, gets
    as its text the text after the number and the non-blank lines after it,
    each normalized, joined by single spaces; its options are gathered from
    the line after them. *)
Theorem wrapped_question_joined pre qline conts rest m_q :
  re_match QUESTION_START_RE (normalize_line qline) = Some m_q ->
  Forall (fun raw => starts_item raw = false) conts ->
  match rest with [] => True | r :: _ => starts_item r = true end ->
  read_question (pre ++ qline :: conts ++ rest) (length pre) m_q =
  (join (U " ")
     (filter truthy (strip (group 2 m_q) :: map normalize_line conts)),
   fst (gather_options (length (pre ++ qline :: conts ++ rest))
          (pre ++ qline :: conts ++ rest)
          (length pre + S (length conts)) []),
   snd (gather_options (length (pre ++ qline :: conts ++ rest))
          (pre ++ qline :: conts ++ rest)
          (length pre + S (length conts)) [])).
Proof.
  intros Hm Hc Hr. unfold read_question.
  assert (E : pre ++ qline :: conts ++ rest = (pre ++ [qline]) ++ conts ++ rest)
    by (rewrite <- app_assoc; reflexivity).
  assert (El : S (length pre) = length (pre ++ [qline]))
    by (rewrite length_app; simpl; lia).
  rewrite El. rewrite E at 2. rewrite accumulate_run; auto.
  - rewrite <- El.
    replace (S (length pre) + length conts)%nat
      with (length pre + S (length conts))%nat by lia.
    destruct (gather_options _ _ _ _) as [opts i']. simpl fst. simpl snd.
    f_equal. f_equal. simpl app.
    rewrite joined_question_text.
    + f_equal. destruct (strip (group 2 m_q)); reflexivity.
    + exact (group_text_tidy _ _ _ 2 Hm).
    + apply kept_lines_tidy.
  - rewrite E, !length_app. simpl. lia.
Qed.

Lemma wrapped_question_joined_witness :
  read_question
    [U "3. Name the organ that"; U "  pumps   blood"; U ""; U "A) Heart"]
    0 [(2%nat, U "Name the organ that"); (1%nat, U "3")] =
  (U "Name the organ that pumps blood",
   fst (gather_options 4
          [U "3. Name the organ that"; U "  pumps   blood"; U ""; U "A) Heart"]
          3 []),
   snd (gather_options 4
          [U "3. Name the organ that"; U "  pumps   blood"; U ""; U "A) Heart"]
          3 [])).
Proof.
  apply (wrapped_question_joined [] (U "3. Name the organ that")
           [U "  pumps   blood"; U ""] [U "A) Heart"]
           [(2%nat, U "Name the organ that"); (1%nat, U "3")]).
  - reflexivity.
  - repeat constructor.
  - reflexivity.
Defined.
